(** * The EnsoGL runner configuration: [runner/config.ts]

    A shallow embedding of [lib/rust/ensogl/pack/js/src/runner/config.ts]:
    [parseBoolean], the [Option] class with its type-directed [load], the
    [Group] class with [merge] and [load], and the [Config] class with
    [resolve], [resolveFromObjectInternal] and [finalize].

    Modelling decisions.
    - [Option] objects are mutated in place ([load], [finalize],
      [resolveFromObjectInternal], [initOptions]) and are shared by reference
      ([Group.merge] stores the very objects of its inputs in its result), so
      they live in a store and every other structure holds references to them.
    - A [Group] or a plain options object is never written to once it is built
      (no method assigns into [this.options] or [this.groups]; [merge] fills the
      maps of the [new Group()] it returns), so it is modelled by its contents:
      an insertion-ordered list of entries, the order [Object.entries] yields.
    - [logger.error] and [console.error] append to a log kept in the state.
    - A call that throws (a property read on [undefined] in [finalize], a call
      of a property that is no function) or that follows a reference the store
      does not hold yields [None].
    - A property read [o[key]] finds an own property of [o] or, failing that,
      a member of [Object.prototype] ([obj_read]).  The built-in objects are
      taken as the language defines them and are not part of the state: where
      the code goes on to write to one, or to walk through the properties of
      one, the model yields [None] as well ([unmodelled]), so that nothing is
      stated about such a run.  An own property named ['__proto__'], which an
      assignment does not create, is given no special treatment, nor is the
      rule that [Object.entries] lists keys that are array indices first.
    - Strings are sequences of code units below 256.  Numbers are kept as the
      decimal the text denotes; the rounding to an IEEE double that JavaScript
      performs is not modelled, it never changes whether a number is [NaN]. *)

From Stdlib Require Import String Ascii List Bool ZArith NArith Lia.
From stdpp Require Import base option gmap strings.
Import ListNotations.

Set Warnings "-register-all".

Local Open Scope string_scope.
Local Open Scope list_scope.

(** ** JavaScript values *)

(** The result of [Number(..)]: [NaN], a signed infinity, or the decimal
    [mantissa * 10 ^ exponent] with its sign. *)
Inductive JsNumber :=
| NaN
| Infinity (negative : bool)
| Finite (negative : bool) (mantissa : N) (exponent : Z).

Definition isNaN (n : JsNumber) : bool :=
  match n with NaN => true | _ => false end.

(** [OptionValue = string | boolean | number | (string | null)]. *)
Inductive OptionValue :=
| VString (s : string)
| VBoolean (b : bool)
| VNumber (n : JsNumber)
| VNull.

(** [OptionType = 'string' | 'boolean' | 'number']. *)
Inductive OptionType := TString | TBoolean | TNumber.

(** Values of type [any] / [unknown]: what an override tree is made of. *)
Inductive Unknown :=
| UUndefined
| UNull
| UBoolean (b : bool)
| UNumber (n : JsNumber)
| UString (s : string)
| UObject (entries : list (string * Unknown)).

(** The [typeof] operator on the values an [Option] holds. *)
Definition typeof (v : OptionValue) : string :=
  match v with
  | VString _ => "string"
  | VBoolean _ => "boolean"
  | VNumber _ => "number"
  | VNull => "object"
  end.

(** ** Plain objects used as records: [Record<string, V>]

    Entries are kept in insertion order.  [obj_get] finds an own property
    ([None] when there is none), [obj_set] is the assignment [o[key] = v],
    which overwrites in place or appends. *)

(** The members of [Object.prototype]: every plain object has them, unless
    an own property of the same name hides them. *)
Definition Object_prototype : list string :=
  ["constructor"; "hasOwnProperty"; "isPrototypeOf"; "propertyIsEnumerable";
   "toLocaleString"; "toString"; "valueOf"; "__proto__";
   "__defineGetter__"; "__defineSetter__";
   "__lookupGetter__"; "__lookupSetter__"].

Definition inherited (key : string) : bool :=
  existsb (String.eqb key) Object_prototype.

Arguments inherited key : simpl never.

(** What the property read [o[key]] finds: an own property; or a member of
    [Object.prototype], which is a built-in function ([Object.prototype]
    itself for ['__proto__']), never [null] and never an object of this
    module; or nothing ([undefined]). *)
Inductive Property (V : Type) :=
| own (v : V)
| builtin
| undefined.

Arguments own {V} v.
Arguments builtin {V}.
Arguments undefined {V}.

Section Objects.
Context {V : Type}.

Fixpoint obj_get (key : string) (o : list (string * V)) : option V :=
  match o with
  | [] => None
  | (k, v) :: o' => if String.eqb k key then Some v else obj_get key o'
  end.

Fixpoint obj_set (key : string) (v : V) (o : list (string * V))
  : list (string * V) :=
  match o with
  | [] => [(key, v)]
  | (k, w) :: o' =>
      if String.eqb k key then (k, v) :: o' else (k, w) :: obj_set key v o'
  end.

(** [Object.assign(target, source)]. *)
Definition Object_assign (target source : list (string * V))
  : list (string * V) :=
  fold_left (fun t kv => obj_set (fst kv) (snd kv) t) source target.

Definition keys (o : list (string * V)) : list string := map fst o.

(** The property read [o[key]]. *)
Definition obj_read (key : string) (o : list (string * V)) : Property V :=
  match obj_get key o with
  | Some v => own v
  | None => if inherited key then builtin else undefined
  end.
End Objects.

Arguments obj_read {V} key o : simpl never.

(** ** [Number(input)] for a string input: StringToNumber

    [StringNumericLiteral]: optional white space around a signed decimal
    literal (with [Infinity], fraction and exponent) or an unsigned binary,
    octal or hexadecimal integer literal; the empty literal is [0]; anything
    else is [NaN]. *)

Definition isStrWhiteSpaceChar (c : ascii) : bool :=
  let n := N_of_ascii c in
  ((n =? 9) || (n =? 10) || (n =? 11) || (n =? 12) || (n =? 13)
   || (n =? 32) || (n =? 160))%N.

Fixpoint dropWhiteSpace (l : list ascii) : list ascii :=
  match l with
  | c :: l' => if isStrWhiteSpaceChar c then dropWhiteSpace l' else l
  | [] => []
  end.

Definition trimWhiteSpace (l : list ascii) : list ascii :=
  rev (dropWhiteSpace (rev (dropWhiteSpace l))).

(** The value of a digit in the given base, if [c] is one. *)
Definition digitValue (base : N) (c : ascii) : option N :=
  let n := N_of_ascii c in
  let d :=
    (if (48 <=? n) && (n <=? 57) then Some (n - 48)
     else if (97 <=? n) && (n <=? 102) then Some (n - 87)
     else if (65 <=? n) && (n <=? 70) then Some (n - 55)
     else None)%N in
  match d with
  | Some v => if (v <? base)%N then Some v else None
  | None => None
  end.

(** Reads the longest run of digits: the accumulated value, the number of
    digits read, and the rest of the text. *)
Fixpoint readDigits (base : N) (l : list ascii) (acc : N) (count : nat)
  : N * nat * list ascii :=
  match l with
  | c :: l' =>
      match digitValue base c with
      | Some d => readDigits base l' (acc * base + d)%N (S count)
      | None => (acc, count, l)
      end
  | [] => (acc, count, [])
  end.

Definition isExponentIndicator (c : ascii) : bool :=
  (N_of_ascii c =? 101)%N || (N_of_ascii c =? 69)%N.

(** [ExponentPart_opt] and the end of the literal. *)
Definition ExponentPart (negative : bool) (mantissa : N) (exponent : Z)
    (l : list ascii) : JsNumber :=
  match l with
  | [] => Finite negative mantissa exponent
  | c :: l' =>
      if isExponentIndicator c then
        let '(expNegative, l'') :=
          match l' with
          | "+"%char :: t => (false, t)
          | "-"%char :: t => (true, t)
          | _ => (false, l')
          end in
        match readDigits 10 l'' 0 0 with
        | (e, S _, []) =>
            Finite negative mantissa
              (exponent + (if expNegative then - Z.of_N e else Z.of_N e))
        | _ => NaN
        end
      else NaN
  end.

Definition StrUnsignedDecimalLiteral (negative : bool) (l : list ascii)
  : JsNumber :=
  if String.eqb (string_of_list_ascii l) "Infinity" then Infinity negative
  else
    match readDigits 10 l 0 0 with
    | (ip, n1, "."%char :: r1) =>
        match readDigits 10 r1 ip 0 with
        | (m, n2, r2) =>
            if (n1 + n2 =? 0)%nat then NaN
            else ExponentPart negative m (- Z.of_nat n2) r2
        end
    | (ip, n1, r1) =>
        if (n1 =? 0)%nat then NaN else ExponentPart negative ip 0 r1
    end.

Definition NonDecimalIntegerLiteral (base : N) (l : list ascii) : JsNumber :=
  match readDigits base l 0 0 with
  | (v, S _, []) => Finite false v 0
  | _ => NaN
  end.

Definition StrNumericLiteral (l : list ascii) : JsNumber :=
  match l with
  | "0"%char :: ("x" | "X")%char :: l' => NonDecimalIntegerLiteral 16 l'
  | "0"%char :: ("o" | "O")%char :: l' => NonDecimalIntegerLiteral 8 l'
  | "0"%char :: ("b" | "B")%char :: l' => NonDecimalIntegerLiteral 2 l'
  | "+"%char :: l' => StrUnsignedDecimalLiteral false l'
  | "-"%char :: l' => StrUnsignedDecimalLiteral true l'
  | _ => StrUnsignedDecimalLiteral false l
  end.

Definition Number (input : string) : JsNumber :=
  match trimWhiteSpace (list_ascii_of_string input) with
  | [] => Finite false 0 0
  | l => StrNumericLiteral l
  end.


(** ** State: the store of [Option] objects and the log *)

(** A configuration parameter: the fields of [class Option<T>]. *)
Record Option := mkOption {
  name : string;
  group : string;
  default : OptionValue;
  value : OptionValue;
  type : OptionType;
  description : string;
  defaultDescription : option string;
  setByUser : bool;
  hidden : bool;
  primary : bool
}.

(** The argument of the constructor of [Option]. *)
Record OptionCfg := mkOptionCfg {
  cfg_default : OptionValue;
  cfg_type : OptionType;
  cfg_description : string;
  cfg_defaultDescription : option string;
  cfg_hidden : option bool;
  cfg_primary : option bool
}.

(** [new Option(cfg)]: the field initialisers, then the constructor body. *)
Definition new_Option (cfg : OptionCfg) : Option :=
  {| name := "uninitialized";
     group := "uninitialized";
     default := cfg_default cfg;
     value := cfg_default cfg;
     type := cfg_type cfg;
     description := cfg_description cfg;
     defaultDescription := cfg_defaultDescription cfg;
     setByUser := false;
     hidden := from_option id false (cfg_hidden cfg);
     primary := from_option id true (cfg_primary cfg) |}.

(** Field assignments [this.f = x]. *)
Definition set_value (x : OptionValue) (o : Option) : Option :=
  mkOption (name o) (group o) (default o) x (type o) (description o)
    (defaultDescription o) (setByUser o) (hidden o) (primary o).

Definition set_setByUser (x : bool) (o : Option) : Option :=
  mkOption (name o) (group o) (default o) (value o) (type o) (description o)
    (defaultDescription o) x (hidden o) (primary o).

Definition set_name (x : string) (o : Option) : Option :=
  mkOption x (group o) (default o) (value o) (type o) (description o)
    (defaultDescription o) (setByUser o) (hidden o) (primary o).

Definition set_group (x : string) (o : Option) : Option :=
  mkOption (name o) x (default o) (value o) (type o) (description o)
    (defaultDescription o) (setByUser o) (hidden o) (primary o).

(** What reaches the logger.  [ValueUpdateError] carries the four
    interpolated parts of the message of [printValueUpdateError]: the
    qualified name, the expected type, the rejected input and the default. *)
Inductive Diagnostic :=
| ValueUpdateError (qualifiedName : string) (expected : OptionType)
    (input : string) (dflt : OptionValue)
| ConsoleError (message : string).

(** References to [Option] objects. *)
Definition oref := positive.

Record State := mkState {
  store : gmap positive Option;
  log : list Diagnostic
}.

(** Computations over the state; [None] is a thrown exception. *)
Definition M (A : Type) : Type := State -> option (A * State).

Definition ret {A} (a : A) : M A := fun st => Some (a, st).

Definition bind {A B} (m : M A) (k : A -> M B) : M B :=
  fun st => match m st with
            | Some (a, st') => k a st'
            | None => None
            end.

Definition throw {A} : M A := fun _ => None.

(** The code goes on inside a built-in object, which the state does not
    hold: like [throw], no result. *)
Definition unmodelled {A} : M A := fun _ => None.

Notation "x <- m ;; k" := (bind m (fun x => k))
  (at level 90, m at level 89, right associativity).
Notation "m ;;; k" := (bind m (fun _ => k))
  (at level 90, right associativity).

(** Reading the object behind a reference, and assigning to its fields. *)
Definition deref (this : oref) : M Option :=
  fun st => match store st !! this with
            | Some o => Some (o, st)
            | None => None
            end.

Definition assign (this : oref) (f : Option -> Option) : M unit :=
  fun st => match store st !! this with
            | Some o => Some (tt, mkState (<[this := f o]> (store st)) (log st))
            | None => None
            end.

Definition emit (d : Diagnostic) : M unit :=
  fun st => Some (tt, mkState (store st) (log st ++ [d])).

Definition logger_error (d : Diagnostic) : M unit := emit d.
Definition console_error (message : string) : M unit :=
  emit (ConsoleError message).

(** [for (const entry of entries) body(entry)]. *)
Fixpoint for_each {A} (entries : list A) (body : A -> M unit) : M unit :=
  match entries with
  | [] => ret tt
  | e :: rest => body e ;;; for_each rest body
  end.

(** ** Utils *)

Definition DEFAULT_ENTRY_POINT : string := "ide".

(** [parseBoolean(value: any): boolean | null]; the [switch] compares with
    strict equality. *)
Definition parseBoolean (v : Unknown) : option bool :=
  match v with
  | UBoolean true => Some true
  | UBoolean false => Some false
  | UString s =>
      if String.eqb s "true" then Some true
      else if String.eqb s "false" then Some false
      else if String.eqb s "enabled" then Some true
      else if String.eqb s "disabled" then Some false
      else if String.eqb s "yes" then Some true
      else if String.eqb s "no" then Some false
      else if String.eqb s "1" then Some true
      else if String.eqb s "0" then Some false
      else None
  | _ => None
  end.

(** ** Option *)

(** [qualifiedName()]: the empty string is the only falsy [group]. *)
Definition qualifiedName (o : Option) : string :=
  if negb (String.eqb (group o) "") && negb (String.eqb (group o) (name o))
  then group o ++ "." ++ name o
  else name o.

Definition printValueUpdateError (this : oref) (input : string) : M unit :=
  o <- deref this ;;
  logger_error (ValueUpdateError (qualifiedName o) (type o) input (default o)).

(** [load(input: string)]: the dispatch is on the run-time type of the
    current value. *)
Definition load (this : oref) (input : string) : M unit :=
  o <- deref this ;;
  if String.eqb (typeof (value o)) "boolean" then
    match parseBoolean (UString input) with
    | None => printValueUpdateError this input
    | Some newVal =>
        assign this (set_value (VBoolean newVal)) ;;;
        assign this (set_setByUser true)
    end
  else if String.eqb (typeof (value o)) "number" then
    let newVal := Number input in
    if isNaN newVal then printValueUpdateError this input
    else
      assign this (set_value (VNumber newVal)) ;;;
      assign this (set_setByUser true)
  else
    assign this (set_value (VString input)) ;;;
    assign this (set_setByUser true).

(** ** Group *)

(** [class Group]: [options] maps names to [Option] objects, [groups] maps
    names to nested groups. *)
Inductive Group :=
| mkGroup (options : list (string * oref)) (groups : list (string * Group)).

Definition Group_options (g : Group) : list (string * oref) :=
  match g with mkGroup options _ => options end.

Definition Group_groups (g : Group) : list (string * Group) :=
  match g with mkGroup _ groups => groups end.

(** [new Group(cfg?)]: a missing map defaults to the empty object. *)
Definition new_Group (options : option (list (string * oref)))
    (groups : option (list (string * Group))) : Group :=
  mkGroup (from_option id [] options) (from_option id [] groups).

(** The second loop of [merge]: [other]'s options are written over the
    copy of [this.options].  Where a name is already taken ([option != null],
    also for a name [Object.prototype] has) the source has only the comment
    [// TODO warning]: nothing is emitted. *)
Fixpoint merge_options (entries : list (string * oref))
    (result_options : list (string * oref)) : M (list (string * oref)) :=
  match entries with
  | [] => ret result_options
  | (otherOptionName, otherOption) :: rest =>
      match obj_read otherOptionName result_options with
      | own _ | builtin => ret tt
      | undefined => ret tt
      end ;;;
      merge_options rest (obj_set otherOptionName otherOption result_options)
  end.

(** The first loop of [merge]: [other]'s groups are written over the copy
    of [this.groups]; where the name is taken the two groups are merged by
    the recursive call, passed as [merge].  Under a name the result has only
    from [Object.prototype], [group] is a built-in, [group.merge] is
    [undefined] and the call throws. *)
Section merge_groups.
Variable merge : Group -> Group -> M Group.

Fixpoint merge_groups (entries : list (string * Group))
    (result_groups : list (string * Group)) : M (list (string * Group)) :=
  match entries with
  | [] => ret result_groups
  | (otherGroupName, otherGroup) :: rest =>
      match obj_read otherGroupName result_groups with
      | undefined =>
          merge_groups rest (obj_set otherGroupName otherGroup result_groups)
      | builtin => throw
      | own group =>
          merged <- merge group otherGroup ;;
          merge_groups rest (obj_set otherGroupName merged result_groups)
      end
  end.
End merge_groups.

(** [merge(other)]. *)
Fixpoint merge (this other : Group) {struct other} : M Group :=
  match other with
  | mkGroup otherOptions otherGroups =>
      let result := new_Group None None in
      result_groups <-
        merge_groups merge otherGroups
          (Object_assign (Group_groups result) (Group_groups this)) ;;
      result_options <-
        merge_options otherOptions
          (Object_assign (Group_options result) (Group_options this)) ;;
      ret (mkGroup result_options result_groups)
  end.

(** [Group.load(config: unknown)].  Under a key the options have only from
    [Object.prototype], [option] is a built-in, [option.load] is [undefined]
    and the call throws. *)
Definition Group_load (this : Group) (config : Unknown) : M unit :=
  match config with
  | UObject entries =>
      for_each entries (fun entry =>
        let '(key, v) := entry in
        match v with
        | UString s =>
            match obj_read key (Group_options this) with
            | undefined => console_error "TODO"
            | builtin => throw
            | own option => load option s
            end
        | _ => console_error "TODO"
        end)
  | _ => console_error "TODO"
  end.

(** The module-level sample: [opt1], [opt2] and [xx = opt1.merge(opt2)]. *)
Definition sample_cfg : OptionCfg :=
  mkOptionCfg (VBoolean false) TBoolean "foo" None None None.

Definition sample_state : State :=
  mkState (<[1%positive := new_Option sample_cfg]>
           (<[2%positive := new_Option sample_cfg]>
           (<[3%positive := new_Option sample_cfg]>
           (<[4%positive := new_Option sample_cfg]> ∅)))) [].

Definition opt1 : Group :=
  new_Group (Some [("opt1", 1%positive)])
    (Some [("grp1", new_Group (Some [("grp1Opt1", 2%positive)]) None)]).

Definition opt2 : Group :=
  new_Group (Some [("opt2", 3%positive)])
    (Some [("grp1", new_Group (Some [("grp1Opt2", 4%positive)]) None)]).

(** Two groups that hold an [Option] under the same name. *)
Definition shadowed : Group := new_Group (Some [("opt", 1%positive)]) None.
Definition shadowing : Group := new_Group (Some [("opt", 3%positive)]) None.

(** Three groups that share no name. *)
Definition grpA : Group :=
  new_Group (Some [("a", 1%positive)])
    (Some [("inner", new_Group (Some [("x", 2%positive)]) None)]).
Definition grpB : Group := new_Group (Some [("b", 3%positive)]) None.
Definition grpC : Group :=
  new_Group (Some [("c", 4%positive)])
    (Some [("other", new_Group None None)]).

(** ** Options *)

(** [interface ExternalOptions { [key: string]: Option | ExternalOptions }]:
    [inl] is [value instanceof Option]. *)
Inductive ExternalOptions :=
| mkExternalOptions (entries : list (string * (oref + ExternalOptions))).

Definition entries_of (options : ExternalOptions)
  : list (string * (oref + ExternalOptions)) :=
  match options with mkExternalOptions entries => entries end.

(** The loop of [initOptions]; [initOptions] is the recursive call. *)
Section init_entries.
Variable initOptions : ExternalOptions -> M unit.

Fixpoint init_entries (entries : list (string * (oref + ExternalOptions)))
  : M unit :=
  match entries with
  | [] => ret tt
  | (key, inl v) :: rest =>
      assign v (set_group "TODO") ;;;
      assign v (set_name key) ;;;
      init_entries rest
  | (key, inr v) :: rest =>
      initOptions v ;;;
      init_entries rest
  end.
End init_entries.

(** [initOptions(options)]. *)
Fixpoint initOptions (options : ExternalOptions) : M unit :=
  match options with
  | mkExternalOptions entries => init_entries initOptions entries
  end.

(** ** Config *)

Record Config := mkConfig { Config_options : ExternalOptions }.

(** The loop of [resolveFromObjectInternal] over the entries of [other];
    [resolveFromObjectInternal] is the recursive call.  A string override is
    assigned to [option.value] as it is ([// FIXME parsing]); every
    mismatch is a [// TODO] that does nothing.  Under a key the schema has
    only from [Object.prototype], [option] is a built-in and no [Option]:
    the recursive call gets it as its schema, which does nothing unless
    [value] is an object with entries, and then reads the properties of the
    built-in ([unmodelled]). *)
Section resolve_entries.
Variable resolveFromObjectInternal :
  ExternalOptions -> Unknown -> M (option (list string)).

Fixpoint resolve_entries (options : ExternalOptions)
    (entries : list (string * Unknown)) : M unit :=
  match entries with
  | [] => ret tt
  | (key, v) :: rest =>
      match obj_read key (entries_of options) with
      | undefined => ret tt
      | builtin =>
          match v with
          | UObject (_ :: _) => unmodelled
          | _ => ret tt
          end
      | own option =>
          match v with
          | UString s =>
              match option with
              | inl option => assign option (set_value (VString s))
              | inr _ => ret tt
              end
          | _ =>
              match option with
              | inl _ => ret tt
              | inr option => resolveFromObjectInternal option v ;;; ret tt
              end
          end
      end ;;;
      resolve_entries options rest
  end.
End resolve_entries.

(** [resolveFromObjectInternal(options, other)]; the result is always
    [null] ([None]). *)
Fixpoint resolveFromObjectInternal (options : ExternalOptions)
    (other : Unknown) {struct other} : M (option (list string)) :=
  match other with
  | UObject entries =>
      resolve_entries resolveFromObjectInternal options entries ;;;
      ret None
  | _ => ret None
  end.

(** [resolveFromObject(other: Record<string, unknown>)]. *)
Definition resolveFromObject (this : Config) (other : list (string * Unknown))
  : M (option (list string)) :=
  resolveFromObjectInternal (Config_options this) (UObject other).

(** The property chain [this.options.<group>.<key>] of [finalize], for the
    names ['loader'], ['enabled'], ['startup'] and ['entry'], none of which
    [Object.prototype] or an [Option] has.  By the static type
    [Options = typeof options & ExternalOptions] the chain ends in an
    [Option]; on a schema that lacks the group or the key it goes on to
    read a property of [undefined] and throws.  Where the schema has a
    nested group in the place of the [Option], [finalize] reads and writes
    the fields of that plain object, which the model does not hold
    ([unmodelled]). *)
Definition member (options : ExternalOptions) (group key : string) : M oref :=
  match obj_get group (entries_of options) with
  | Some (inr sub) =>
      match obj_get key (entries_of sub) with
      | Some (inl o) => ret o
      | Some (inr _) => unmodelled
      | None => throw
      end
  | _ => throw
  end.

(** [v !== s] for a string [s]. *)
Definition strict_neq_string (v : OptionValue) (s : string) : bool :=
  match v with
  | VString s' => negb (String.eqb s' s)
  | _ => true
  end.

(** [finalize()]; [&&] evaluates its right operand only when the left one is
    true. *)
Definition finalize (this : Config) : M unit :=
  enabled <- member (Config_options this) "loader" "enabled" ;;
  e <- deref enabled ;;
  if negb (setByUser e) then
    entry <- member (Config_options this) "startup" "entry" ;;
    s <- deref entry ;;
    if strict_neq_string (value s) DEFAULT_ENTRY_POINT then
      assign enabled (set_value (VBoolean false))
    else ret tt
  else ret tt.

(** One override source: [Record<string, Record<string, any>>]. *)
Definition Overrides := list (string * list (string * Unknown)).

(** The body of the first loop of [resolve], for one group of a source:
    [allOverrides[group] = Object.assign(allOverrides[group] || {}, options)].
    [None]: [allOverrides] has the name only from [Object.prototype], so
    the target of [Object.assign] is a built-in; the call throws a
    [TypeError] where a key is not writable there (['name'], ['length']) and
    otherwise writes to an object every part of the program shares. *)
Definition assign_group (allOverrides : option Overrides)
    (entry : string * list (string * Unknown)) : option Overrides :=
  match allOverrides with
  | None => None
  | Some allOverrides =>
      let '(group, options) := entry in
      match obj_read group allOverrides with
      | own overridesGroup =>
          Some (obj_set group (Object_assign overridesGroup options)
                  allOverrides)
      | builtin => None
      | undefined =>
          Some (obj_set group (Object_assign [] options) allOverrides)
      end
  end.

(** The first loop of [resolve]: the sources are folded into [allOverrides],
    group by group; [undefined] sources are skipped. *)
Definition add_override (allOverrides : option Overrides)
    (override : option Overrides) : option Overrides :=
  match override with
  | None => allOverrides
  | Some override => fold_left assign_group override allOverrides
  end.

(** [resolve(overrides)]. *)
Definition resolve (this : Config) (overrides : list (option Overrides))
  : M (option (list string)) :=
  match fold_left add_override overrides (Some []) with
  | None => unmodelled
  | Some allOverrides =>
      unrecognizedParams <-
        resolveFromObject this
          (map (fun entry => (fst entry, UObject (snd entry))) allOverrides) ;;
      finalize this ;;;
      ret unrecognizedParams
  end.

(** Application default configuration: the module-level [options], whose
    ten [Option] objects are built when the module is loaded. *)
Definition option_cfg (dflt : OptionValue) (ty : OptionType)
    (description : string) (primary : option bool) : OptionCfg :=
  mkOptionCfg dflt ty description None None primary.

Definition options_state : State :=
  mkState
    (list_to_map
       [(1%positive, new_Option (option_cfg (VBoolean true) TBoolean
           ("Controls whether the visual loader should be visible on the screen when " ++
            "downloading and compiling WASM sources. By default, the loader is used only if " ++
            "the `entry` is set to " ++ DEFAULT_ENTRY_POINT ++ ".") (Some false)));
        (2%positive, new_Option (option_cfg (VString "pkg.wasm") TString
           "The URL of the WASM pkg file generated by ensogl-pack." (Some false)));
        (3%positive, new_Option (option_cfg (VString "pkg.js") TString
           "The URL of the JS pkg file generated by ensogl-pack." (Some false)));
        (4%positive, new_Option (option_cfg (VString "shaders") TString
           "The URL of pre-compiled the shaders directory." (Some false)));
        (5%positive, new_Option (option_cfg (VNumber (Finite false 1 0)) TNumber
           ("The (time needed for WASM download) / (total time including WASM " ++
            "download and WASM app initialization). In case of small WASM apps, this can be set " ++
            "to 1.0. In case of bigger WASM apps, it is desired to show the progress bar growing " ++
            "up to e.g. 70% and leaving the last 30% for WASM app init.") (Some false)));
        (6%positive, new_Option (option_cfg (VNumber (Finite false 300 0)) TNumber
           ("The maximum time in milliseconds a before main entry point is allowed to run. After " ++
            "this time, an error will be printed, but the execution will continue.") (Some false)));
        (7%positive, new_Option (option_cfg (VString DEFAULT_ENTRY_POINT) TString
           "The application entry point. Use `entry=_` to list available entry points." None));
        (8%positive, new_Option (option_cfg (VString "default") TString
           "The EnsoGL theme to be used." None));
        (9%positive, new_Option (option_cfg (VBoolean false) TBoolean
           ("Controls whether the application should be run in the debug mode. In this mode all " ++
            "logs are printed to the console. Otherwise, the logs are hidden unless explicitly " ++
            "shown by calling `showLogs`. Moreover, EnsoGL extensions are loaded in the debug " ++
            "mode which may cause additional logs to be printed.") None));
        (10%positive, new_Option (option_cfg (VBoolean false) TBoolean
           ("Enables SpectorJS. This is a temporary flag to test Spector. It will be removed " ++
            "after all Spector integration issues are resolved. See: " ++
            "https://github.com/BabylonJS/Spector.js/issues/252.") (Some false)))])
    [].

Definition options : ExternalOptions :=
  mkExternalOptions
    [("loader", inr (mkExternalOptions
        [("enabled", inl 1%positive);
         ("pkgWasmUrl", inl 2%positive);
         ("pkgJsUrl", inl 3%positive);
         ("shadersUrl", inl 4%positive);
         ("loaderDownloadToInitRatio", inl 5%positive);
         ("maxBeforeMainTimeMs", inl 6%positive)]));
     ("startup", inr (mkExternalOptions
        [("entry", inl 7%positive);
         ("theme", inl 8%positive)]));
     ("debug", inr (mkExternalOptions
        [("debug", inl 9%positive);
         ("enableSpector", inl 10%positive)]))].

(** [new Config(inputOptions?)]. *)
Definition new_Config (inputOptions : option ExternalOptions) : M Config :=
  let this := mkConfig (from_option id options inputOptions) in
  initOptions (Config_options this) ;;;
  ret this.

(** The schema of the end-to-end scenario: [startup.entry], a string with
    default ['ide'], and [loader.enabled], a boolean with default [true]. *)
Definition entry_cfg : OptionCfg :=
  mkOptionCfg (VString DEFAULT_ENTRY_POINT) TString
    "The application entry point. Use `entry=_` to list available entry points."
    None None None.

Definition enabled_cfg : OptionCfg :=
  mkOptionCfg (VBoolean true) TBoolean
    ("Controls whether the visual loader should be visible on the screen when " ++
     "downloading and compiling WASM sources. By default, the loader is used only if " ++
     "the `entry` is set to " ++ DEFAULT_ENTRY_POINT ++ ".")
    None None (Some false).

Definition startup_entry : oref := 1%positive.
Definition loader_enabled : oref := 2%positive.

Definition canonical_state : State :=
  mkState (<[startup_entry := new_Option entry_cfg]>
           (<[loader_enabled := new_Option enabled_cfg]> ∅)) [].

Definition canonical_options : ExternalOptions :=
  mkExternalOptions
    [("startup", inr (mkExternalOptions [("entry", inl startup_entry)]));
     ("loader", inr (mkExternalOptions [("enabled", inl loader_enabled)]))].

(** What an observer reads off an [Option] after a run. *)
Definition value_of (r : oref) (st : State) : option OptionValue :=
  value <$> store st !! r.

Definition setByUser_of (r : oref) (st : State) : option bool :=
  setByUser <$> store st !! r.

(** The end-to-end scenario: a [Config] over the two-option schema, then
    [resolve(overrides)]. *)
Definition run_resolve (overrides : list (option Overrides))
  : option (option (list string) * State) :=
  (this <- new_Config (Some canonical_options) ;; resolve this overrides)
    canonical_state.

(** [value] and [setByUser] of an [Option] after a run, if the run returned. *)
Definition observe {A} (r : oref) (result : option (A * State))
  : option (OptionValue * bool) :=
  match result with
  | Some (_, st) =>
      match store st !! r with
      | Some o => Some (value o, setByUser o)
      | None => None
      end
  | None => None
  end.

(** ** mergeOptions *)



(** ** Vocabulary of the statements *)

(** An [Option<boolean>]: declared ['boolean'], holding a boolean. *)
Definition boolean_typed (o : Option) : Prop :=
  type o = TBoolean /\ typeof (value o) = "boolean".

(** An [Option<number>]: declared ['number'], holding a number. *)
Definition number_typed (o : Option) : Prop :=
  type o = TNumber /\ typeof (value o) = "number".

(** The state after a successful assignment of [v] by [load]. *)
Definition loaded (this : oref) (v : OptionValue) (o : Option) (st : State)
  : State :=
  mkState (<[this := set_setByUser true (set_value v o)]> (store st)) (log st).

(** The state after [load] rejected [input]: only the log grew. *)
Definition rejected (input : string) (o : Option) (st : State) : State :=
  mkState (store st)
    (log st ++ [ValueUpdateError (qualifiedName o) (type o) input (default o)]).


(** What a coercion failure is to leave behind: the [Option] as it was
    and one more entry in the log. *)
Definition coercion_failure (this : oref) (input : string) (st : State)
  : Prop :=
  exists st',
    load this input st = Some (tt, st') /\
    value_of this st' = value_of this st /\
    setByUser_of this st' = setByUser_of this st /\
    exists d, log st' = log st ++ [d].



(** The run [st] to [st'] wrote to no [Option] outside [refs] and removed
    none. *)
Definition writes_within (refs : list oref) (st st' : State) : Prop :=
  (forall r, ~ In r refs -> store st' !! r = store st !! r) /\
  (forall r, is_Some (store st !! r) -> is_Some (store st' !! r)).



(** The child names of a group are pairwise different, as the keys of an
    object are. *)
Definition unique_names (g : Group) : Prop :=
  NoDup (keys (Group_options g)) /\ NoDup (keys (Group_groups g)).

(** Two groups share no child name. *)
Definition share_no_names (a b : Group) : Prop :=
  (forall k, In k (keys (Group_options a)) -> ~ In k (keys (Group_options b))) /\
  (forall k, In k (keys (Group_groups a)) -> ~ In k (keys (Group_groups b))).

(** The [Option] objects of a schema, at any depth. *)
Fixpoint ExternalOptions_refs (options : ExternalOptions) : list oref :=
  match options with
  | mkExternalOptions entries =>
      flat_map (fun entry =>
                  match snd entry with
                  | inl r => [r]
                  | inr sub => ExternalOptions_refs sub
                  end) entries
  end.

(** Every [Option] of the schema is in the store. *)
Definition allocated_options (options : ExternalOptions) (st : State) : Prop :=
  forall r, In r (ExternalOptions_refs options) -> is_Some (store st !! r).

(** [options.<group>.<key>] is the [Option] [r], as the static type of
    [Config.options] has it for [loader.enabled] and [startup.entry]. *)
Definition has_option (options : ExternalOptions) (group key : string)
    (r : oref) : Prop :=
  exists sub,
    obj_get group (entries_of options) = Some (inr sub) /\
    obj_get key (entries_of sub) = Some (inl r).

(** The run [st] to [st'] logged nothing and removed no [Option]. *)
Definition quiet (st st' : State) : Prop :=
  log st' = log st /\
  forall r, is_Some (store st !! r) -> is_Some (store st' !! r).

(** What [load] would store for [input], read off its three branches:
    [None] when the input is rejected. *)
Definition coerced (o : Option) (input : string) : option OptionValue :=
  match value o with
  | VBoolean _ => VBoolean <$> parseBoolean (UString input)
  | VNumber _ =>
      if isNaN (Number input) then None else Some (VNumber (Number input))
  | _ => Some (VString input)
  end.


(** The value an override tree holds at [group.key], if any. *)
Definition override_leaf (tree : Overrides) (group key : string)
  : option Unknown :=
  match obj_get group tree with
  | Some options => obj_get key options
  | None => None
  end.

(** The keys of an override source are pairwise different, in the source
    and in each of its groups, as the keys of objects are. *)
Definition unique_keys (source : Overrides) : Prop :=
  NoDup (keys source) /\
  Forall (fun entry => NoDup (keys (snd entry))) source.

(** From [st] to [st'] nothing was logged, and every [Option] is what it
    was but for its [value]. *)
Definition values_only (st st' : State) : Prop :=
  log st' = log st /\
  forall r o, store st !! r = Some o ->
              exists v, store st' !! r = Some (set_value v o).

(** The [Option] objects of a schema with the keys they are stored under,
    at any depth. *)
Fixpoint ExternalOptions_leaves (options : ExternalOptions)
  : list (string * oref) :=
  match options with
  | mkExternalOptions entries =>
      flat_map (fun entry =>
                  match snd entry with
                  | inl r => [(fst entry, r)]
                  | inr sub => ExternalOptions_leaves sub
                  end) entries
  end.

(** An [Option] with its [name] and [group] blanked: two [Option]s with
    the same image agree on every other field. *)
Definition without_names (o : Option) : Option :=
  set_name "" (set_group "" o).

(** From [st] to [st'] nothing was logged and nothing but [name] and
    [group] was written; the [Option]s of [done] have the group ['TODO']
    and as name a key they stand under in [done], the others are as they
    were. *)
Definition initialised (done : list (string * oref)) (st st' : State)
  : Prop :=
  log st' = log st /\
  forall r o, store st !! r = Some o ->
    exists o',
      store st' !! r = Some o' /\
      without_names o' = without_names o /\
      (In r (map snd done) -> group o' = "TODO" /\ In (name o', r) done) /\
      (~ In r (map snd done) -> o' = o).

(** The [Option] objects behind one entry of a schema. *)
Definition entry_refs (node : oref + ExternalOptions) : list oref :=
  match node with
  | inl r => [r]
  | inr sub => ExternalOptions_refs sub
  end.

(** One pass of the loop of [resolveFromObjectInternal], for the entry
    [key: v] of [other]: [resolve_entries] is this pass, then the rest. *)
Definition resolve_entry (options : ExternalOptions) (key : string)
    (v : Unknown) : M unit :=
  match obj_read key (entries_of options) with
  | undefined => ret tt
  | builtin =>
      match v with
      | UObject (_ :: _) => unmodelled
      | _ => ret tt
      end
  | own option =>
      match v with
      | UString s =>
          match option with
          | inl option => assign option (set_value (VString s))
          | inr _ => ret tt
          end
      | _ =>
          match option with
          | inl _ => ret tt
          | inr option => resolveFromObjectInternal option v ;;; ret tt
          end
      end
  end.





(** The group [this.merge(other)] returns; [merge] reads nothing of the
    state, so any state gives it. *)
Definition merged (this other : Group) : Group :=
  match merge this other (mkState ∅ []) with
  | Some (m, _) => m
  | None => this
  end.


(** No key names a member of [Object.prototype]. *)
Definition ordinary_keys {V} (o : list (string * V)) : Prop :=
  Forall (fun entry => inherited (fst entry) = false) o.

(** No name of an option or of a group, in a group and in every group
    nested in it, names a member of [Object.prototype]. *)
Inductive ordinary_names : Group -> Prop :=
| ordinary_names_intro options groups :
    ordinary_keys options ->
    ordinary_keys groups ->
    Forall (fun entry => ordinary_names (snd entry)) groups ->
    ordinary_names (mkGroup options groups).


(** No key of an override tree, at any depth, names a member of
    [Object.prototype]. *)
Fixpoint ordinary_value (v : Unknown) : bool :=
  match v with
  | UObject entries =>
      forallb (fun entry =>
                 negb (inherited (fst entry)) && ordinary_value (snd entry))
        entries
  | _ => true
  end.

Definition ordinary_source (source : Overrides) : bool :=
  forallb (fun entry =>
             negb (inherited (fst entry)) && ordinary_value (UObject (snd entry)))
    source.

Definition ordinary_overrides (overrides : list (option Overrides)) : bool :=
  forallb (fun override =>
             match override with
             | Some source => ordinary_source source
             | None => true
             end) overrides.

(** * Properties *)



(** ** The monad *)

Lemma bind_Some {A B} (m : M A) (k : A -> M B) st a st' :
  m st = Some (a, st') -> bind m k st = k a st'.
Proof. intros H. unfold bind. now rewrite H. Qed.

Lemma bind_None {A B} (m : M A) (k : A -> M B) st :
  m st = None -> bind m k st = None.
Proof. intros H. unfold bind. now rewrite H. Qed.

Lemma deref_Some this o st :
  store st !! this = Some o -> deref this st = Some (o, st).
Proof. intros H. unfold deref. now rewrite H. Qed.

Lemma assign_Some this f o st :
  store st !! this = Some o ->
  assign this f st = Some (tt, mkState (<[this := f o]> (store st)) (log st)).
Proof. intros H. unfold assign. now rewrite H. Qed.

(** The two assignments of a successful [load], as one update. *)
Lemma assign_value_setByUser this v o st :
  store st !! this = Some o ->
  (assign this (set_value v) ;;; assign this (set_setByUser true)) st
  = Some (tt, loaded this v o st).
Proof.
  intros H. rewrite (bind_Some _ _ _ _ _ (assign_Some _ _ _ _ H)).
  unfold assign, loaded; simpl.
  rewrite lookup_insert_eq. now rewrite insert_insert_eq.
Qed.

Lemma printValueUpdateError_Some this input o st :
  store st !! this = Some o ->
  printValueUpdateError this input st = Some (tt, rejected input o st).
Proof.
  intros H. unfold printValueUpdateError.
  now rewrite (bind_Some _ _ _ _ _ (deref_Some _ _ _ H)).
Qed.

(** ** [parseBoolean] *)

Lemma parseBoolean_other input :
  ~ In input ["true"; "1"; "yes"; "enabled"; "false"; "0"; "no"; "disabled"] ->
  parseBoolean (UString input) = None.
Proof.
  intros H. unfold parseBoolean.
  repeat match goal with
  | |- context [String.eqb input ?s] =>
      destruct (String.eqb_spec input s) as [->|_];
      [exfalso; apply H; simpl; tauto|]
  end.
  reflexivity.
Qed.

(** ** [Option.load] *)

Lemma load_boolean_eq this o input st :
  store st !! this = Some o ->
  typeof (value o) = "boolean" ->
  load this input st =
  match parseBoolean (UString input) with
  | Some b => Some (tt, loaded this (VBoolean b) o st)
  | None => Some (tt, rejected input o st)
  end.
Proof.
  intros Hlook Hty. unfold load.
  rewrite (bind_Some _ _ _ _ _ (deref_Some _ _ _ Hlook)).
  rewrite Hty. simpl String.eqb. cbv iota.
  destruct (parseBoolean (UString input)).
  - now apply assign_value_setByUser.
  - now apply printValueUpdateError_Some.
Qed.

Lemma load_number_eq this o input st :
  store st !! this = Some o ->
  typeof (value o) = "number" ->
  load this input st =
  if isNaN (Number input) then Some (tt, rejected input o st)
  else Some (tt, loaded this (VNumber (Number input)) o st).
Proof.
  intros Hlook Hty. unfold load.
  rewrite (bind_Some _ _ _ _ _ (deref_Some _ _ _ Hlook)).
  rewrite Hty. simpl String.eqb. cbv iota.
  destruct (isNaN (Number input)).
  - now apply printValueUpdateError_Some.
  - now apply assign_value_setByUser.
Qed.

(** A boolean-typed [Option] stays boolean-typed under [load], and a
    number-typed one number-typed: the reading of the type off the current
    value agrees with the declared type throughout. *)
Lemma load_keeps_boolean_typed this o input st st' :
  store st !! this = Some o -> boolean_typed o ->
  load this input st = Some (tt, st') ->
  exists o', store st' !! this = Some o' /\ boolean_typed o'.
Proof.
  intros Hlook [Htag Hty]. rewrite (load_boolean_eq _ _ _ _ Hlook Hty).
  destruct (parseBoolean (UString input)); intros [= <-].
  - eexists. split; [apply lookup_insert_eq|]. now split.
  - exists o. now repeat split.
Qed.

Lemma load_keeps_number_typed this o input st st' :
  store st !! this = Some o -> number_typed o ->
  load this input st = Some (tt, st') ->
  exists o', store st' !! this = Some o' /\ number_typed o'.
Proof.
  intros Hlook [Htag Hty]. rewrite (load_number_eq _ _ _ _ Hlook Hty).
  destruct (isNaN (Number input)); intros [= <-].
  - exists o. now repeat split.
  - eexists. split; [apply lookup_insert_eq|]. now split.
Qed.

(** C3. For every boolean-typed [Option], [load] with ["true"], ["1"], ["yes"]
    or ["enabled"] sets [value] to [true] and [setByUser] to [true]; with
    ["false"], ["0"], ["no"] or ["disabled"] it sets [value] to [false] and
    [setByUser] to [true]; with any other string it leaves the [Option] as it
    was and logs one value-update error. *)
Theorem load_boolean (this : oref) (o : Option) (input : string) (st : State) :
  store st !! this = Some o ->
  boolean_typed o ->
  (In input ["true"; "1"; "yes"; "enabled"] ->
     load this input st = Some (tt, loaded this (VBoolean true) o st)) /\
  (In input ["false"; "0"; "no"; "disabled"] ->
     load this input st = Some (tt, loaded this (VBoolean false) o st)) /\
  (~ In input ["true"; "1"; "yes"; "enabled"; "false"; "0"; "no"; "disabled"] ->
     load this input st
     = Some (tt, mkState (store st)
                   (log st ++ [ValueUpdateError (qualifiedName o) TBoolean
                                 input (default o)]))).
Proof.
  intros Hlook [Htag Hty].
  rewrite (load_boolean_eq _ _ _ _ Hlook Hty).
  repeat split.
  - simpl. intros [<-|[<-|[<-|[<-|[]]]]]; reflexivity.
  - simpl. intros [<-|[<-|[<-|[<-|[]]]]]; reflexivity.
  - intros H. rewrite (parseBoolean_other _ H). unfold rejected.
    now rewrite Htag.
Qed.

Lemma load_boolean_witness :
  load 1%positive "yes" sample_state
  = Some (tt, loaded 1%positive (VBoolean true) (new_Option sample_cfg)
                sample_state) /\
  load 1%positive "0" sample_state
  = Some (tt, loaded 1%positive (VBoolean false) (new_Option sample_cfg)
                sample_state) /\
  load 1%positive "maybe" sample_state
  = Some (tt, mkState (store sample_state)
                [ValueUpdateError "uninitialized" TBoolean "maybe"
                   (VBoolean false)]).
Proof.
  split; [|split].
  - apply (load_boolean 1%positive (new_Option sample_cfg) "yes" sample_state);
      [reflexivity | split; reflexivity | simpl; tauto].
  - apply (load_boolean 1%positive (new_Option sample_cfg) "0" sample_state);
      [reflexivity | split; reflexivity | simpl; tauto].
  - apply (load_boolean 1%positive (new_Option sample_cfg) "maybe" sample_state);
      [reflexivity | split; reflexivity | simpl; intuition discriminate].
Defined.

(** [Number] on the inputs of the scenario. *)
Example Number_decimal : Number "3.14" = Finite false 314 (-2).
Proof. reflexivity. Qed.

Example Number_unparseable : Number "abc" = NaN.
Proof. reflexivity. Qed.

Example Number_Infinity : Number "Infinity" = Infinity false.
Proof. reflexivity. Qed.

Example Number_hexadecimal : Number "0x1F" = Finite false 31 0.
Proof. reflexivity. Qed.

Example Number_empty : Number "" = Finite false 0 0.
Proof. reflexivity. Qed.

(** C4, as the claim states it, fails: [load("Infinity")] on the
    number-typed [loader.maxBeforeMainTimeMs] is no coercion failure, the
    value becomes [Infinity] and [setByUser] becomes [true]. *)
Lemma load_Infinity_is_accepted :
  ~ coercion_failure 6%positive "Infinity" options_state.
Proof.
  intros (st' & Hload & Hvalue & _).
  rewrite (load_number_eq 6%positive
             (new_Option (option_cfg (VNumber (Finite false 300 0)) TNumber
                ("The maximum time in milliseconds a before main entry point is allowed to run. After " ++
                 "this time, an error will be printed, but the execution will continue.") (Some false)))
             "Infinity" options_state eq_refl eq_refl) in Hload.
  simpl in Hload. injection Hload as <-.
  vm_compute in Hvalue. discriminate Hvalue.
Qed.

(** C4, amended. For every number-typed [Option], [load] converts the input
    with [Number]: when the result is [NaN] the [Option] is left as it was
    and one value-update error is logged; otherwise, for a finite number and
    for an infinity alike, [value] becomes that number and [setByUser]
    becomes [true]. *)
Theorem load_number (this : oref) (o : Option) (input : string) (st : State) :
  store st !! this = Some o ->
  number_typed o ->
  load this input st
  = Some (tt,
          if isNaN (Number input)
          then mkState (store st)
                 (log st ++ [ValueUpdateError (qualifiedName o) TNumber
                               input (default o)])
          else loaded this (VNumber (Number input)) o st).
Proof.
  intros Hlook [Htag Hty].
  rewrite (load_number_eq _ _ _ _ Hlook Hty).
  unfold rejected. rewrite Htag.
  now destruct (isNaN (Number input)).
Qed.

Lemma load_number_witness :
  (value_of 6%positive ∘ snd <$> load 6%positive "3.14" options_state
   = Some (Some (VNumber (Finite false 314 (-2))))) /\
  (log ∘ snd <$> load 6%positive "abc" options_state
   = Some [ValueUpdateError "uninitialized" TNumber "abc"
             (VNumber (Finite false 300 0))]) /\
  (value_of 6%positive ∘ snd <$> load 6%positive "Infinity" options_state
   = Some (Some (VNumber (Infinity false)))).
Proof.
  pose proof (fun input o =>
    load_number 6%positive o input options_state) as H.
  split; [|split].
  - rewrite (H "3.14" _ eq_refl (conj eq_refl eq_refl)). reflexivity.
  - rewrite (H "abc" _ eq_refl (conj eq_refl eq_refl)). reflexivity.
  - rewrite (H "Infinity" _ eq_refl (conj eq_refl eq_refl)). reflexivity.
Defined.

(** ** Plain objects *)

Section Object_facts.
Context {V : Type}.
Implicit Types (o target source : list (string * V)) (key : string) (v : V).

Lemma obj_get_In key o v : obj_get key o = Some v -> In (key, v) o.
Proof.
  induction o as [|[k w] o IH]; simpl; [discriminate|].
  destruct (String.eqb_spec k key) as [->|_].
  - intros [= ->]. now left.
  - intros H. right. now apply IH.
Qed.

Lemma obj_get_fresh key o : ~ In key (keys o) -> obj_get key o = None.
Proof.
  induction o as [|[k w] o IH]; simpl; [reflexivity|].
  intros H. destruct (String.eqb_spec k key) as [->|_].
  - exfalso. apply H. now left.
  - apply IH. intros Hin. apply H. now right.
Qed.

Lemma obj_set_fresh key v o :
  ~ In key (keys o) -> obj_set key v o = o ++ [(key, v)].
Proof.
  induction o as [|[k w] o IH]; simpl; [reflexivity|].
  intros H. destruct (String.eqb_spec k key) as [->|_].
  - exfalso. apply H. now left.
  - f_equal. apply IH. intros Hin. apply H. now right.
Qed.



(** Assigning entries under fresh, pairwise different names appends them. *)
Lemma Object_assign_fresh target source :
  NoDup (keys source) ->
  (forall k, In k (keys source) -> ~ In k (keys target)) ->
  Object_assign target source = target ++ source.
Proof.
  revert target. induction source as [|[k w] source IH]; intros target Hnd Hfresh.
  - simpl. now rewrite app_nil_r.
  - unfold Object_assign. simpl.
    inversion Hnd as [|? ? Hk Hnd']; subst.
    rewrite obj_set_fresh by (apply Hfresh; now left).
    change (Object_assign (target ++ [(k, w)]) source
            = target ++ (k, w) :: source).
    rewrite IH; [now rewrite <- app_assoc| assumption |].
    intros k' Hin. unfold keys. rewrite map_app, in_app_iff. simpl.
    intros [H|[<-|[]]]; [|now apply Hk, list_elem_of_In].
    apply (Hfresh k'); [now right | assumption].
Qed.

Lemma Object_assign_nil source :
  NoDup (keys source) -> Object_assign [] source = source.
Proof.
  intros H. rewrite Object_assign_fresh; [reflexivity | assumption |].
  intros k _ [].
Qed.
End Object_facts.

(** ** [Group.merge] *)

(** Induction over a group and the groups nested in it. *)
Section Group_induction.
Variable P : Group -> Prop.
Hypothesis mkGroup_case :
  forall options groups,
    Forall (fun entry => P (snd entry)) groups -> P (mkGroup options groups).

End Group_induction.



(** Property reads. *)
Section Object_read.
Context {V : Type}.
Implicit Types (o : list (string * V)) (key : string) (v : V).

Lemma obj_read_own key o v : obj_get key o = Some v -> obj_read key o = own v.
Proof. intros H. unfold obj_read. now rewrite H. Qed.

Lemma obj_read_undefined key o :
  obj_get key o = None -> inherited key = false -> obj_read key o = undefined.
Proof. intros H Hk. unfold obj_read. now rewrite H, Hk. Qed.

Lemma obj_read_builtin key o :
  obj_get key o = None -> inherited key = true -> obj_read key o = builtin.
Proof. intros H Hk. unfold obj_read. now rewrite H, Hk. Qed.


Lemma obj_read_undefined_inv key o :
  obj_read key o = undefined -> obj_get key o = None /\ inherited key = false.
Proof.
  unfold obj_read. destruct (obj_get key o); [discriminate|].
  now destruct (inherited key).
Qed.

Lemma ordinary_keys_existsb o :
  ordinary_keys o -> existsb inherited (keys o) = false.
Proof.
  induction 1 as [|[k v] o Hk _ IH]; [reflexivity|].
  simpl in *. now rewrite Hk, IH.
Qed.

End Object_read.

Lemma In_keys_obj_set {V} x k (v : V) o :
  In x (keys (obj_set k v o)) <-> x = k \/ In x (keys o).
Proof.
  induction o as [|[k0 w] o IH]; simpl.
  - split; [intros [<-|[]]; now left | intros [->|[]]; now left].
  - destruct (String.eqb_spec k0 k) as [->|Hne]; simpl.
    + split; [tauto | intros [->|H]; tauto].
    + rewrite IH. split; [tauto | intros [->|[H|H]]; tauto].
Qed.

Lemma NoDup_keys_obj_set {V} k (v : V) o :
  NoDup (keys o) -> NoDup (keys (obj_set k v o)).
Proof.
  induction o as [|[k0 w] o IH]; simpl; intros Hnd.
  - apply NoDup_cons_2; [rewrite list_elem_of_In; tauto | apply NoDup_nil_2].
  - inversion Hnd as [|? ? Hk Hnd']; subst. rewrite list_elem_of_In in Hk.
    destruct (String.eqb_spec k0 k) as [->|Hne]; simpl.
    + apply NoDup_cons_2; [now rewrite list_elem_of_In | assumption].
    + apply NoDup_cons_2; [|now apply IH].
      rewrite list_elem_of_In, In_keys_obj_set. tauto.
Qed.

Lemma NoDup_keys_Object_assign {V} (target source : list (string * V)) :
  NoDup (keys target) -> NoDup (keys (Object_assign target source)).
Proof.
  revert target. induction source as [|[k w] source IH]; intros target H.
  - exact H.
  - apply (IH (obj_set k w target)). now apply NoDup_keys_obj_set.
Qed.

Lemma Forall_obj_set {V} (P : V -> Prop) k v (o : list (string * V)) :
  Forall (fun entry => P (snd entry)) o -> P v ->
  Forall (fun entry => P (snd entry)) (obj_set k v o).
Proof.
  intros Ho Hv. induction Ho as [|[k0 w] o Hw Ho IH]; simpl.
  - now repeat constructor.
  - destruct (String.eqb k0 k); constructor; assumption.
Qed.

Lemma forallb_obj_set {V} (P : string * V -> bool) k v o :
  forallb P o = true -> P (k, v) = true -> forallb P (obj_set k v o) = true.
Proof.
  induction o as [|[k0 w] o IH]; simpl; intros Ho Hv.
  - now rewrite Hv.
  - apply andb_prop in Ho as [H0 Ho].
    destruct (String.eqb_spec k0 k) as [->|Hne]; simpl.
    + now rewrite Hv, Ho.
    + now rewrite H0, IH.
Qed.

Lemma forallb_Object_assign {V} (P : string * V -> bool) target source :
  forallb P target = true -> forallb P source = true ->
  forallb P (Object_assign target source) = true.
Proof.
  revert target. induction source as [|[k w] source IH]; intros target Ht Hs.
  - exact Ht.
  - simpl in Hs. apply andb_prop in Hs as [Hkw Hs].
    apply (IH (obj_set k w target)); [now apply forallb_obj_set | exact Hs].
Qed.


(** The options loop is [Object.assign]; it leaves the state alone. *)
Lemma merge_options_eq entries result_options st :
  merge_options entries result_options st
  = Some (Object_assign result_options entries, st).
Proof.
  revert result_options.
  induction entries as [|[k r] entries IH]; intros result_options; simpl.
  - reflexivity.
  - unfold bind. destruct (obj_read k result_options); simpl; apply IH.
Qed.






(** Under fresh, pairwise different names the groups loop makes no
    recursive call: it throws at a name [Object.prototype] has, and appends
    otherwise. *)
Lemma merge_groups_fresh (rec : Group -> Group -> M Group) entries :
  forall result_groups st,
    NoDup (keys entries) ->
    (forall k, In k (keys entries) -> ~ In k (keys result_groups)) ->
    merge_groups rec entries result_groups st
    = if existsb inherited (keys entries) then None
      else Some (result_groups ++ entries, st).
Proof.
  induction entries as [|[k og] entries IH]; intros acc st Hnd Hfresh.
  - simpl. now rewrite app_nil_r.
  - inversion Hnd as [|? ? Hk Hnd']; subst.
    assert (Hget : obj_get k acc = None)
      by (apply obj_get_fresh, Hfresh; now left).
    change (existsb inherited (keys ((k, og) :: entries)))
      with (inherited k || existsb inherited (keys entries)).
    cbn [merge_groups].
    destruct (inherited k) eqn:Hinh.
    + now rewrite (obj_read_builtin _ _ Hget Hinh).
    + rewrite (obj_read_undefined _ _ Hget Hinh).
      rewrite obj_set_fresh by (apply Hfresh; now left).
      rewrite IH; [|assumption|].
      * cbn [orb]. now rewrite <- app_assoc.
      * intros k' Hin. unfold keys. rewrite map_app, in_app_iff. simpl.
        intros [H|[<-|[]]]; [|now apply Hk, list_elem_of_In].
        apply (Hfresh k'); [now right | assumption].
Qed.

(** Merging groups that share no name concatenates their maps, unless a
    group of [other] has a name [Object.prototype] has. *)
Lemma merge_share_no_names this other st :
  unique_names this -> unique_names other -> share_no_names other this ->
  merge this other st
  = if existsb inherited (keys (Group_groups other)) then None
    else Some (mkGroup (Group_options this ++ Group_options other)
                       (Group_groups this ++ Group_groups other), st).
Proof.
  intros [Hto Htg] [Hoo Hog] [Hso Hsg].
  destruct other as [otherOptions otherGroups]. simpl in *.
  rewrite !Object_assign_nil by assumption.
  unfold bind at 1.
  rewrite (merge_groups_fresh merge _ _ st Hog Hsg).
  destruct (existsb inherited (keys otherGroups)); [reflexivity|].
  rewrite (bind_Some _ _ _ _ _ (merge_options_eq _ _ _)).
  now rewrite (Object_assign_fresh _ _ Hoo Hso).
Qed.

(** ** [Group.load] *)

(** [load] on an [Option] of the store returns: it either rejects the input
    or assigns some value. *)
Lemma load_outcome this o input st :
  store st !! this = Some o ->
  exists st', load this input st = Some (tt, st') /\
              (st' = rejected input o st \/ exists v, st' = loaded this v o st).
Proof.
  intros Hlook. unfold load.
  rewrite (bind_Some _ _ _ _ _ (deref_Some _ _ _ Hlook)).
  destruct (String.eqb (typeof (value o)) "boolean");
    [destruct (parseBoolean (UString input))
    |destruct (String.eqb (typeof (value o)) "number");
       [destruct (isNaN (Number input))|]];
    first [ rewrite (printValueUpdateError_Some _ _ _ _ Hlook)
          | rewrite (assign_value_setByUser _ _ _ _ Hlook) ];
    eauto.
Qed.

Lemma writes_within_same_store refs st st' :
  store st' = store st -> writes_within refs st st'.
Proof. intros H. unfold writes_within. rewrite H. now split. Qed.

Lemma writes_within_trans refs st1 st2 st3 :
  writes_within refs st1 st2 -> writes_within refs st2 st3 ->
  writes_within refs st1 st3.
Proof.
  intros [H1 H1'] [H2 H2']. split.
  - intros r Hr. now rewrite H2, H1.
  - auto.
Qed.








(** C6: where both groups hold an [Option] under one name, the result holds
    [other]'s, and [merge] reports nothing: the state, with its empty log,
    is as before. *)
Theorem merge_shadows_silently :
  merge shadowed shadowing sample_state
  = Some (mkGroup [("opt", 3%positive)] [], sample_state) /\
  log sample_state = [].
Proof. split; reflexivity. Qed.

(** ** Associativity of [merge] *)







(** Both bracketings of the sample return, with ["yes"] loaded into [a]. *)
Example merge_assoc_sample :
  observe 1%positive
    ((ab <- merge grpA grpB ;; abc <- merge ab grpC ;;
      Group_load abc (UObject [("a", UString "yes"); ("c", UString "maybe");
                               ("b", UNull)])) sample_state)
  = Some (VBoolean true, true).
Proof. reflexivity. Qed.

(** The module-level sample: [xx.groups.grp1.options] holds both options of
    the two [grp1] groups. *)
Example merge_sample :
  merge opt1 opt2 sample_state
  = Some (mkGroup [("opt1", 1%positive); ("opt2", 3%positive)]
            [("grp1", mkGroup [("grp1Opt1", 2%positive);
                               ("grp1Opt2", 4%positive)] [])],
          sample_state).
Proof. reflexivity. Qed.

(** ** [Config.finalize] *)

Lemma member_inv options group key st r st' :
  member options group key st = Some (r, st') ->
  st' = st /\ forall st0, member options group key st0 = Some (r, st0).
Proof.
  unfold member.
  destruct (obj_get group (entries_of options)) as [[?|sub]|];
    try discriminate.
  destruct (obj_get key (entries_of sub)) as [[o|?]|]; try discriminate.
  intros [= -> ->]. now split.
Qed.

Lemma deref_inv this st o st' :
  deref this st = Some (o, st') -> st' = st /\ store st !! this = Some o.
Proof.
  unfold deref. destruct (store st !! this) eqn:H; [|discriminate].
  intros [= -> ->]. now split.
Qed.

(** C10. [finalize] is idempotent: from every state, calling it twice in
    succession ends as calling it once does. *)
Theorem finalize_idempotent (this : Config) (st : State) :
  (finalize this ;;; finalize this) st = finalize this st.
Proof.
  unfold bind at 1.
  destruct (finalize this st) as [[[] st']|] eqn:Hfin; [|reflexivity].
  revert Hfin. unfold finalize at 1.
  unfold bind at 1.
  destruct (member (Config_options this) "loader" "enabled" st)
    as [[enabled st0]|] eqn:Hen; [|discriminate].
  apply member_inv in Hen as [-> Hen].
  unfold bind at 1.
  destruct (deref enabled st) as [[e st0]|] eqn:He; [|discriminate].
  apply deref_inv in He as [-> He].
  destruct (setByUser e) eqn:Hset; cbn [negb].
  { intros [= <-]. unfold finalize.
    rewrite (bind_Some _ _ _ _ _ (Hen st)).
    rewrite (bind_Some _ _ _ _ _ (deref_Some _ _ _ He)).
    cbv beta. now rewrite Hset. }
  unfold bind at 1.
  destruct (member (Config_options this) "startup" "entry" st)
    as [[entry st0]|] eqn:Hentry; [|discriminate].
  apply member_inv in Hentry as [-> Hentry].
  unfold bind at 1.
  destruct (deref entry st) as [[s st0]|] eqn:Hs; [|discriminate].
  apply deref_inv in Hs as [-> Hs].
  destruct (strict_neq_string (value s) DEFAULT_ENTRY_POINT) eqn:Hneq.
  2: { intros [= <-]. unfold finalize.
       rewrite (bind_Some _ _ _ _ _ (Hen st)).
       rewrite (bind_Some _ _ _ _ _ (deref_Some _ _ _ He)).
       cbv beta. rewrite Hset. cbn [negb].
       rewrite (bind_Some _ _ _ _ _ (Hentry st)).
       rewrite (bind_Some _ _ _ _ _ (deref_Some _ _ _ Hs)).
       cbv beta. now rewrite Hneq. }
  rewrite (assign_Some _ _ _ _ He). intros [= <-].
  set (st' := mkState (<[enabled := set_value (VBoolean false) e]> (store st))
                (log st)).
  assert (He' : store st' !! enabled = Some (set_value (VBoolean false) e))
    by apply lookup_insert_eq.
  unfold finalize.
  rewrite (bind_Some _ _ _ _ _ (Hen st')).
  rewrite (bind_Some _ _ _ _ _ (deref_Some _ _ _ He')).
  cbn [setByUser set_value]. rewrite Hset. cbn [negb].
  rewrite (bind_Some _ _ _ _ _ (Hentry st')).
  assert (Hs' : exists s', store st' !! entry = Some s' /\
                           strict_neq_string (value s') DEFAULT_ENTRY_POINT = true).
  { destruct (decide (enabled = entry)) as [<-|Hne].
    - exists (set_value (VBoolean false) e). now split.
    - exists s. split; [|assumption].
      unfold st'. simpl. now rewrite lookup_insert_ne. }
  destruct Hs' as (s' & Hs' & Hneq').
  rewrite (bind_Some _ _ _ _ _ (deref_Some _ _ _ Hs')).
  cbv beta. rewrite Hneq'. rewrite (assign_Some _ _ _ _ He').
  unfold st'. simpl. now rewrite insert_insert_eq.
Qed.

(** [finalize] on the scenario's schema after an override of the entry
    point: it returns and switches the loader off, once or twice alike. *)
Example finalize_twice_sample :
  observe loader_enabled
    ((this <- new_Config (Some canonical_options) ;;
      resolveFromObject this [("startup", UObject [("entry", UString "custom")])] ;;;
      finalize this ;;; finalize this) canonical_state)
  = Some (VBoolean false, false).
Proof. reflexivity. Qed.

(** ** [Config.resolve] on the end-to-end scenario *)

(** What [resolveFromObject] leaves before [finalize] runs: the raw string
    in [value], and [setByUser] still [false]. *)
Example resolveFromObject_assigns_raw_string :
  observe loader_enabled
    ((this <- new_Config (Some canonical_options) ;;
      resolveFromObject this [("loader", UObject [("enabled", UString "true")])])
       canonical_state)
  = Some (VString "true", false).
Proof. reflexivity. Qed.

Example resolve_no_overrides :
  observe loader_enabled (run_resolve []) = Some (VBoolean true, false) /\
  observe startup_entry (run_resolve []) = Some (VString "ide", false).
Proof. split; reflexivity. Qed.

(** The same on the application default configuration. *)
Example resolve_default_options :
  observe 1%positive
    ((this <- new_Config None ;;
      resolve this [Some [("startup", [("entry", UString "custom")]);
                          ("loader", [("enabled", UString "true")])]])
       options_state)
  = Some (VBoolean false, false).
Proof. reflexivity. Qed.

(** C1: with the source [{startup:{entry:'custom'}, loader:{enabled:'true'}}]
    the explicit setting of [loader.enabled] is lost, [resolve] leaves the
    value [false] and [setByUser] [false]; with [{startup:{entry:'custom'}}]
    alone the value is [false] as well. *)
Theorem resolve_explicit_loader_lost :
  observe loader_enabled
    (run_resolve [Some [("startup", [("entry", UString "custom")]);
                        ("loader", [("enabled", UString "true")])]])
  = Some (VBoolean false, false) /\
  observe loader_enabled
    (run_resolve [Some [("startup", [("entry", UString "custom")])]])
  = Some (VBoolean false, false).
Proof. split; reflexivity. Qed.

(** C2: of two sources that set [loader.enabled] the later one wins, but the
    value is its raw string, not the boolean, and [setByUser] stays
    [false]. *)
Theorem resolve_later_source_uncoerced :
  observe loader_enabled
    (run_resolve [Some [("loader", [("enabled", UString "false")])];
                  Some [("loader", [("enabled", UString "true")])]])
  = Some (VString "true", false).
Proof. reflexivity. Qed.

(** C7: for override paths the schema does not have, [resolve] returns
    [null], no list of unrecognized parameters. *)
Theorem resolve_unrecognized_not_reported :
  fst <$> run_resolve [Some [("nosuch", [("param", UString "1")]);
                             ("loader", [("missing", UString "1")])]]
  = Some None.
Proof. reflexivity. Qed.

(** C8: an unparseable scalar for the boolean [loader.enabled] is not
    answered by a kept value and a diagnostic: [resolve] returns [null],
    stores the raw string and logs nothing. *)
Theorem resolve_malformed_scalar_stored :
  match run_resolve [Some [("loader", [("enabled", UString "maybe")])]] with
  | Some (unrecognized, st) =>
      unrecognized = None /\
      value_of loader_enabled st = Some (VString "maybe") /\
      log st = []
  | None => False
  end.
Proof. vm_compute. repeat split. Qed.

(** ** [Config.resolve] returns, and returns [null] *)

(** Induction over an override tree and the trees nested in it. *)
Section Unknown_induction.
Variable P : Unknown -> Prop.
Hypothesis UUndefined_case : P UUndefined.
Hypothesis UNull_case : P UNull.
Hypothesis UBoolean_case : forall b, P (UBoolean b).
Hypothesis UNumber_case : forall n, P (UNumber n).
Hypothesis UString_case : forall s, P (UString s).
Hypothesis UObject_case :
  forall entries, Forall (fun entry => P (snd entry)) entries ->
                  P (UObject entries).

Fixpoint Unknown_nested_ind (u : Unknown) : P u :=
  match u with
  | UUndefined => UUndefined_case
  | UNull => UNull_case
  | UBoolean b => UBoolean_case b
  | UNumber n => UNumber_case n
  | UString s => UString_case s
  | UObject entries =>
      UObject_case entries
        ((fix each (l : list (string * Unknown))
            : Forall (fun entry => P (snd entry)) l :=
            match l with
            | [] => List.Forall_nil _
            | (k, v) :: rest =>
                List.Forall_cons _ (k, v) rest (Unknown_nested_ind v) (each rest)
            end) entries)
  end.
End Unknown_induction.

Lemma quiet_refl st : quiet st st.
Proof. now split. Qed.

Lemma quiet_trans st1 st2 st3 : quiet st1 st2 -> quiet st2 st3 -> quiet st1 st3.
Proof.
  intros [Hl1 Hs1] [Hl2 Hs2]. split; [now rewrite Hl2 | auto].
Qed.

Lemma quiet_allocated options st st' :
  quiet st st' -> allocated_options options st -> allocated_options options st'.
Proof. intros [_ H] Halloc r Hr. now apply H, Halloc. Qed.

Lemma assign_quiet this f st :
  is_Some (store st !! this) ->
  exists st', assign this f st = Some (tt, st') /\ quiet st st'.
Proof.
  intros [o Ho]. rewrite (assign_Some _ _ _ _ Ho). eexists.
  split; [reflexivity|]. split; [reflexivity|]. simpl.
  intros r Hr. rewrite lookup_insert_is_Some.
  destruct (decide (this = r)); auto.
Qed.

Lemma entry_option_allocated options key r st :
  obj_get key (entries_of options) = Some (inl r) ->
  allocated_options options st -> is_Some (store st !! r).
Proof.
  intros Hget Halloc. apply Halloc. destruct options as [entries].
  simpl in *. apply in_flat_map. exists (key, inl r).
  split; [now apply obj_get_In | now left].
Qed.

Lemma entry_group_allocated options key sub st :
  obj_get key (entries_of options) = Some (inr sub) ->
  allocated_options options st -> allocated_options sub st.
Proof.
  intros Hget Halloc r Hr. apply Halloc. destruct options as [entries].
  simpl in *. apply in_flat_map. exists (key, inr sub).
  split; [now apply obj_get_In | exact Hr].
Qed.

Lemma entry_refs_incl options key node r :
  obj_get key (entries_of options) = Some node ->
  In r (entry_refs node) -> In r (ExternalOptions_refs options).
Proof.
  intros Hget Hr. destruct options as [entries]. simpl in *.
  apply in_flat_map. exists (key, node). split; [now apply obj_get_In|].
  exact Hr.
Qed.

(** What [resolveFromObjectInternal] keeps, for a relation [R] between the
    states before and after that the assignment [option.value = value]
    keeps: over an override tree none of whose keys is a member of
    [Object.prototype] it returns [null], and [R] holds. *)
Section resolve_invariant.
Variable R : list oref -> State -> State -> Prop.
Hypothesis R_refl : forall refs st, R refs st st.
Hypothesis R_trans :
  forall refs st1 st2 st3, R refs st1 st2 -> R refs st2 st3 -> R refs st1 st3.
Hypothesis R_incl :
  forall refs refs' st st',
    (forall r, In r refs -> In r refs') -> R refs st st' -> R refs' st st'.
Hypothesis R_assign :
  forall r v st,
    is_Some (store st !! r) ->
    exists st', assign r (set_value v) st = Some (tt, st') /\ R [r] st st'.
Hypothesis R_allocated :
  forall refs options st st',
    R refs st st' -> allocated_options options st ->
    allocated_options options st'.

Lemma resolve_entries_invariant
    (rec : ExternalOptions -> Unknown -> M (option (list string))) entries :
  Forall (fun entry =>
            ordinary_value (snd entry) = true ->
            forall sub st, allocated_options sub st ->
              exists st', rec sub (snd entry) st = Some (None, st') /\
                          R (ExternalOptions_refs sub) st st') entries ->
  ordinary_value (UObject entries) = true ->
  forall options st, allocated_options options st ->
    exists st', resolve_entries rec options entries st = Some (tt, st') /\
                R (ExternalOptions_refs options) st st'.
Proof.
  induction 1 as [|[key v] rest Hhead _ IH]; intros Hord options st Halloc.
  - exists st. split; [reflexivity | apply R_refl].
  - simpl in Hord. apply andb_prop in Hord as [[Hkey Hv]%andb_prop Hrest].
    apply negb_true_iff in Hkey. simpl in Hhead.
    cbn [resolve_entries].
    assert (Hstay : exists st1,
              ret tt st = Some (tt, st1) /\
              R (ExternalOptions_refs options) st st1)
      by (exists st; split; [reflexivity | apply R_refl]).
    assert (Hnext : forall body : M unit,
              (exists st1, body st = Some (tt, st1) /\
                           R (ExternalOptions_refs options) st st1) ->
              exists st',
                (body ;;; resolve_entries rec options rest) st = Some (tt, st') /\
                R (ExternalOptions_refs options) st st').
    { intros body (st1 & Hst1 & HR1). rewrite (bind_Some _ _ _ _ _ Hst1).
      destruct (IH Hrest options st1) as (st' & Hst' & HR').
      { exact (R_allocated _ _ _ _ HR1 Halloc). }
      exists st'. split; [exact Hst'|]. now apply (R_trans _ st st1 st'). }
    apply Hnext.
    destruct (obj_get key (entries_of options)) as [[r|sub]|] eqn:Hget.
    + rewrite (obj_read_own _ _ _ Hget).
      destruct v; try exact Hstay.
      destruct (R_assign r (VString s) st) as (st1 & Hst1 & HR1).
      { now apply (entry_option_allocated options key). }
      exists st1. split; [exact Hst1|].
      apply (R_incl [r]); [|exact HR1].
      intros r' [<-|[]]. apply (entry_refs_incl options key (inl r) r Hget).
      now left.
    + rewrite (obj_read_own _ _ _ Hget).
      assert (Hsub : exists st1,
                (rec sub v ;;; ret tt) st = Some (tt, st1) /\
                R (ExternalOptions_refs options) st st1).
      { destruct (Hhead Hv sub st) as (st1 & Hrec & HR1).
        { now apply (entry_group_allocated options key). }
        exists st1. rewrite (bind_Some _ _ _ _ _ Hrec).
        split; [reflexivity|].
        apply (R_incl (ExternalOptions_refs sub)); [|exact HR1].
        intros r' Hr'.
        exact (entry_refs_incl options key (inr sub) r' Hget Hr'). }
      destruct v; try exact Hsub. exact Hstay.
    + rewrite (obj_read_undefined _ _ Hget Hkey). exact Hstay.
Qed.

Lemma resolveFromObjectInternal_invariant other :
  ordinary_value other = true ->
  forall options st, allocated_options options st ->
    exists st', resolveFromObjectInternal options other st = Some (None, st') /\
                R (ExternalOptions_refs options) st st'.
Proof.
  induction other as [| | | | |entries IH] using Unknown_nested_ind;
    intros Hord options st Halloc;
    try (exists st; split; [reflexivity | apply R_refl]).
  destruct (resolve_entries_invariant resolveFromObjectInternal entries IH
              Hord options st Halloc) as (st' & Hst' & HR).
  exists st'. cbn [resolveFromObjectInternal].
  now rewrite (bind_Some _ _ _ _ _ Hst').
Qed.
End resolve_invariant.

(** [resolveFromObjectInternal] returns [null] and logs nothing. *)
Lemma resolveFromObjectInternal_returns other :
  ordinary_value other = true ->
  forall options st, allocated_options options st ->
    exists st', resolveFromObjectInternal options other st = Some (None, st') /\
                quiet st st'.
Proof.
  apply (resolveFromObjectInternal_invariant (fun _ => quiet)).
  - intros _ st. apply quiet_refl.
  - intros _. apply quiet_trans.
  - auto.
  - intros r v st. apply assign_quiet.
  - intros _. apply quiet_allocated.
Qed.

Lemma has_option_member options group key r st :
  has_option options group key r ->
  member options group key st = Some (r, st).
Proof. intros (sub & Hg & Hk). unfold member. now rewrite Hg, Hk. Qed.

Lemma has_option_allocated options group key r st :
  has_option options group key r -> allocated_options options st ->
  is_Some (store st !! r).
Proof.
  intros (sub & Hg & Hk) Halloc.
  apply (entry_option_allocated sub key); [exact Hk|].
  now apply (entry_group_allocated options group).
Qed.

(** [finalize] returns on a schema that has the two options it reads. *)
Lemma finalize_returns this enabled entry st :
  has_option (Config_options this) "loader" "enabled" enabled ->
  has_option (Config_options this) "startup" "entry" entry ->
  allocated_options (Config_options this) st ->
  exists st', finalize this st = Some (tt, st').
Proof.
  intros Hen Hentry Halloc. unfold finalize.
  destruct (has_option_allocated _ _ _ _ st Hen Halloc) as [e He].
  destruct (has_option_allocated _ _ _ _ st Hentry Halloc) as [s Hs].
  rewrite (bind_Some _ _ _ _ _ (has_option_member _ _ _ _ st Hen)).
  rewrite (bind_Some _ _ _ _ _ (deref_Some _ _ _ He)). cbv beta.
  destruct (negb (setByUser e)); [|now exists st].
  rewrite (bind_Some _ _ _ _ _ (has_option_member _ _ _ _ st Hentry)).
  rewrite (bind_Some _ _ _ _ _ (deref_Some _ _ _ Hs)). cbv beta.
  destruct (strict_neq_string (value s) DEFAULT_ENTRY_POINT);
    [|now exists st].
  rewrite (assign_Some _ _ _ _ He). now eexists.
Qed.

(** ** The first loop of [resolve] *)

Lemma forallb_In {A} (P : A -> bool) l x :
  forallb P l = true -> In x l -> P x = true.
Proof. intros H. now apply forallb_forall. Qed.

(** One group of a source whose keys are no members of [Object.prototype]
    is assigned into the tree, which keeps pairwise different keys and only
    such keys. *)
Lemma assign_group_good all group options :
  inherited group = false ->
  ordinary_value (UObject options) = true ->
  unique_keys all -> ordinary_source all = true ->
  exists all',
    assign_group (Some all) (group, options) = Some all' /\
    unique_keys all' /\ ordinary_source all' = true.
Proof.
  intros Hgroup Hopts [Hnd Hfor] Hall. cbn [assign_group].
  assert (Hset : forall target,
            NoDup (keys target) -> ordinary_value (UObject target) = true ->
            unique_keys (obj_set group (Object_assign target options) all) /\
            ordinary_source (obj_set group (Object_assign target options) all)
            = true).
  { intros target Hnt Hot. split; [split|].
    - now apply NoDup_keys_obj_set.
    - apply (Forall_obj_set (fun o => NoDup (keys o))); [exact Hfor|].
      now apply NoDup_keys_Object_assign.
    - apply forallb_obj_set; [exact Hall|]. cbn [fst snd].
      rewrite Hgroup. cbn [negb andb ordinary_value].
      now apply forallb_Object_assign. }
  destruct (obj_get group all) as [overridesGroup|] eqn:Hget.
  - rewrite (obj_read_own _ _ _ Hget). eexists. split; [reflexivity|].
    apply Hset.
    + rewrite Forall_forall in Hfor.
      exact (Hfor (group, overridesGroup)
               (proj2 (list_elem_of_In _ _) (obj_get_In _ _ _ Hget))).
    + apply obj_get_In in Hget.
      apply (forallb_In _ _ _ Hall) in Hget. cbn [fst snd] in Hget.
      now apply andb_prop in Hget as [_ Hget].
  - rewrite (obj_read_undefined _ _ Hget Hgroup). eexists.
    split; [reflexivity|]. apply Hset; [apply NoDup_nil_2 | reflexivity].
Qed.

Lemma add_override_good all override :
  match override with
  | Some source => ordinary_source source = true
  | None => True
  end ->
  unique_keys all -> ordinary_source all = true ->
  exists all',
    add_override (Some all) override = Some all' /\
    unique_keys all' /\ ordinary_source all' = true.
Proof.
  destruct override as [source|]; [|intros _ Hu Ho; now exists all].
  cbn [add_override]. revert all.
  induction source as [|[group options] source IH]; intros all Hsrc Hu Ho.
  - now exists all.
  - cbn [ordinary_source forallb fst snd] in Hsrc.
    apply andb_prop in Hsrc as [[Hgroup Hopts]%andb_prop Hsrc].
    apply negb_true_iff in Hgroup.
    destruct (assign_group_good all group options Hgroup Hopts Hu Ho)
      as (all1 & H1 & Hu1 & Ho1).
    cbn [fold_left]. rewrite H1. now apply IH.
Qed.

(** The first loop of [resolve] returns a tree with pairwise different
    keys, none of them a member of [Object.prototype], when the sources
    have no such key. *)
Lemma folded_good overrides :
  ordinary_overrides overrides = true ->
  forall all,
    unique_keys all -> ordinary_source all = true ->
    exists tree,
      fold_left add_override overrides (Some all) = Some tree /\
      unique_keys tree /\ ordinary_source tree = true.
Proof.
  induction overrides as [|override overrides IH]; intros Hord all Hu Ho.
  - now exists all.
  - cbn [ordinary_overrides forallb] in Hord.
    apply andb_prop in Hord as [Hhead Hord].
    destruct (add_override_good all override) as (all1 & H1 & Hu1 & Ho1);
      [now destruct override | assumption | assumption |].
    cbn [fold_left]. rewrite H1. now apply IH.
Qed.

Lemma ordinary_wrapped (tree : Overrides) :
  ordinary_value
    (UObject (map (fun entry => (fst entry, UObject (snd entry))) tree))
  = ordinary_source tree.
Proof.
  cbn [ordinary_value]. unfold ordinary_source.
  induction tree as [|[k o] tree IH]; [reflexivity|].
  cbn [map forallb fst snd]. now rewrite IH.
Qed.

Lemma unique_keys_nil : unique_keys [].
Proof. split; [apply NoDup_nil_2 | constructor]. Qed.

(** [resolve] returns [null] when no key of the override sources, at any
    depth, is a member of [Object.prototype]. *)
Lemma resolve_returns_null this overrides enabled entry st :
  ordinary_overrides overrides = true ->
  has_option (Config_options this) "loader" "enabled" enabled ->
  has_option (Config_options this) "startup" "entry" entry ->
  allocated_options (Config_options this) st ->
  exists st', resolve this overrides st = Some (None, st').
Proof.
  intros Hord Hen Hentry Halloc. unfold resolve, resolveFromObject.
  destruct (folded_good overrides Hord [] unique_keys_nil eq_refl)
    as (tree & Hfold & _ & Htree).
  unfold Overrides in *. rewrite Hfold.
  rewrite <- ordinary_wrapped in Htree.
  destruct (resolveFromObjectInternal_returns _ Htree
              (Config_options this) st Halloc) as (st1 & Hst1 & Hq).
  rewrite (bind_Some _ _ _ _ _ Hst1).
  destruct (finalize_returns this enabled entry st1 Hen Hentry) as (st' & Hst').
  { now apply (quiet_allocated _ st). }
  exists st'. now rewrite (bind_Some _ _ _ _ _ Hst').
Qed.

(** * Further properties of the code *)

(** ** [Option.load], whatever the type *)

Lemma load_other_eq this o input st :
  store st !! this = Some o ->
  String.eqb (typeof (value o)) "boolean" = false ->
  String.eqb (typeof (value o)) "number" = false ->
  load this input st = Some (tt, loaded this (VString input) o st).
Proof.
  intros Hlook Hb Hn. unfold load.
  rewrite (bind_Some _ _ _ _ _ (deref_Some _ _ _ Hlook)). cbv beta.
  rewrite Hb, Hn. now apply assign_value_setByUser.
Qed.

(** [load] on an [Option] that holds a string, or [null], takes every
    input as it is: [value] becomes the input, [setByUser] becomes [true],
    nothing is logged. *)
Theorem load_string (this : oref) (o : Option) (input : string) (st : State) :
  store st !! this = Some o ->
  typeof (value o) = "string" \/ value o = VNull ->
  load this input st = Some (tt, loaded this (VString input) o st).
Proof.
  intros Hlook Hty. apply load_other_eq; [exact Hlook| |].
  - destruct Hty as [-> | ->]; reflexivity.
  - destruct Hty as [-> | ->]; reflexivity.
Qed.

Lemma load_string_witness :
  observe 7%positive (load 7%positive "true" options_state)
  = Some (VString "true", true) /\
  observe 7%positive (load 7%positive "" options_state)
  = Some (VString "", true).
Proof.
  split.
  - rewrite (load_string 7%positive _ "true" options_state eq_refl
               (or_introl eq_refl)).
    reflexivity.
  - rewrite (load_string 7%positive _ "" options_state eq_refl
               (or_introl eq_refl)).
    reflexivity.
Defined.

(** [load] on an [Option] of the store never throws; it changes nothing
    but [value] and [setByUser] of that [Option], and no other [Option]. *)
Theorem load_frame (this : oref) (o : Option) (input : string) (st : State) :
  store st !! this = Some o ->
  exists st' o',
    load this input st = Some (tt, st') /\
    store st' !! this = Some o' /\
    name o' = name o /\ group o' = group o /\
    default o' = default o /\ type o' = type o /\
    description o' = description o /\
    defaultDescription o' = defaultDescription o /\
    hidden o' = hidden o /\ primary o' = primary o /\
    forall r, r <> this -> store st' !! r = store st !! r.
Proof.
  intros Hlook.
  destruct (load_outcome this o input st Hlook) as (st' & Hload & [->|[v ->]]).
  - exists (rejected input o st), o. now repeat split.
  - exists (loaded this v o st), (set_setByUser true (set_value v o)).
    split; [exact Hload|]. split; [apply lookup_insert_eq|].
    repeat split. intros r Hr. simpl. now apply lookup_insert_ne.
Qed.

Lemma load_frame_witness :
  exists st' o',
    load 6%positive "12" options_state = Some (tt, st') /\
    store st' !! 6%positive = Some o' /\
    name o' = "uninitialized" /\ group o' = "uninitialized" /\
    default o' = VNumber (Finite false 300 0) /\ type o' = TNumber /\
    forall r, r <> 6%positive -> store st' !! r = store options_state !! r.
Proof.
  destruct (load_frame 6%positive _ "12" options_state eq_refl)
    as (st' & o' & Hload & Hlook & Hn & Hg & Hd & Ht & _ & _ & _ & _ & Hr).
  exists st', o'. repeat split; assumption.
Defined.

(** [load] never changes the run-time type of a value that is not [null]:
    a boolean stays a boolean, a number a number, a string a string,
    whatever the input. *)
Theorem load_keeps_typeof (this : oref) (o : Option) (input : string)
    (st : State) :
  store st !! this = Some o ->
  value o <> VNull ->
  exists st' o',
    load this input st = Some (tt, st') /\
    store st' !! this = Some o' /\
    typeof (value o') = typeof (value o).
Proof.
  intros Hlook Hnull.
  destruct (value o) as [s|b|n|] eqn:Hv; [| | |now destruct Hnull].
  - rewrite (load_other_eq this o input st Hlook) by now rewrite Hv.
    eexists _, _. split; [reflexivity|]. split; [apply lookup_insert_eq|].
    reflexivity.
  - rewrite (load_boolean_eq this o input st Hlook) by now rewrite Hv.
    destruct (parseBoolean (UString input)).
    + eexists _, _. split; [reflexivity|].
      split; [apply lookup_insert_eq|]. reflexivity.
    + exists (rejected input o st), o. now rewrite Hv.
  - rewrite (load_number_eq this o input st Hlook) by now rewrite Hv.
    destruct (isNaN (Number input)) eqn:Hnan.
    + exists (rejected input o st), o. now rewrite Hv.
    + eexists _, _. split; [reflexivity|].
      split; [apply lookup_insert_eq|]. reflexivity.
Qed.

Lemma load_keeps_typeof_witness :
  exists st' o',
    load 1%positive "no" options_state = Some (tt, st') /\
    store st' !! 1%positive = Some o' /\
    typeof (value o') = "boolean".
Proof.
  destruct (load_keeps_typeof 1%positive _ "no" options_state eq_refl)
    as (st' & o' & H1 & H2 & H3); [discriminate|].
  exists st', o'. repeat split; assumption.
Defined.

(** [load] in one equation: it stores what [coerced] gives, or rejects. *)
Lemma load_coerced this o input st :
  store st !! this = Some o ->
  load this input st
  = Some (tt, match coerced o input with
              | Some v => loaded this v o st
              | None => rejected input o st
              end).
Proof.
  intros Hlook. unfold coerced.
  destruct (value o) as [s|b|n|] eqn:Hv.
  - apply load_other_eq; [exact Hlook| |]; now rewrite Hv.
  - rewrite (load_boolean_eq this o input st Hlook) by now rewrite Hv.
    now destruct (parseBoolean (UString input)).
  - rewrite (load_number_eq this o input st Hlook) by now rewrite Hv.
    now destruct (isNaN (Number input)).
  - apply load_other_eq; [exact Hlook| |]; now rewrite Hv.
Qed.

Lemma coerced_after_load o a va b :
  coerced o a = Some va ->
  coerced (set_setByUser true (set_value va o)) b = coerced o b.
Proof.
  unfold coerced. cbn [value set_value set_setByUser].
  destruct (value o) as [s|x|n|].
  - now intros [= <-].
  - destruct (parseBoolean (UString a)) as [y|];
      cbv [fmap option_fmap option_map]; [|discriminate].
    now intros [= <-].
  - destruct (isNaN (Number a)); [discriminate|]. now intros [= <-].
  - now intros [= <-].
Qed.

Lemma log_grew_ne (l : list Diagnostic) d : l ++ [d] <> l.
Proof.
  intros H. apply (f_equal (@length _)) in H.
  rewrite length_app in H. simpl in H. lia.
Qed.

(** [load] either rejects the input, logging exactly one error and leaving
    every [Option] as it was, or accepts it, logging nothing and setting
    [setByUser]; it never does both, and never resets [setByUser]. *)
Theorem load_rejects_or_accepts (this : oref) (o : Option) (input : string)
    (st : State) :
  store st !! this = Some o ->
  exists st',
    load this input st = Some (tt, st') /\
    ((store st' = store st /\
      log st' = log st ++ [ValueUpdateError (qualifiedName o) (type o) input
                             (default o)]) \/
     (log st' = log st /\ setByUser_of this st' = Some true)).
Proof.
  intros Hlook. rewrite (load_coerced this o input st Hlook).
  eexists. split; [reflexivity|].
  destruct (coerced o input) as [v|].
  - right. split; [reflexivity|]. unfold setByUser_of, loaded. simpl.
    now rewrite lookup_insert_eq.
  - left. now split.
Qed.

Lemma load_rejects_or_accepts_witness :
  exists st',
    load 9%positive "on" options_state = Some (tt, st') /\
    ((store st' = store options_state /\
      log st' = [ValueUpdateError "uninitialized" TBoolean "on"
                   (VBoolean false)]) \/
     (log st' = [] /\ setByUser_of 9%positive st' = Some true)).
Proof.
  exact (load_rejects_or_accepts 9%positive _ "on" options_state eq_refl).
Defined.

(** A later accepted [load] overrides an earlier one: when [load(b)] on
    its own logs no error, [load(a)] followed by [load(b)] leaves every
    [Option] as [load(b)] alone does, whatever [a] is. *)
Theorem load_accepted_overrides (this : oref) (o : Option) (a b : string)
    (st stb : State) :
  store st !! this = Some o ->
  load this b st = Some (tt, stb) ->
  log stb = log st ->
  exists st2,
    (load this a ;;; load this b) st = Some (tt, st2) /\
    store st2 = store stb.
Proof.
  intros Hlook Hb Hlog.
  rewrite (load_coerced this o b st Hlook) in Hb.
  destruct (coerced o b) as [vb|] eqn:Hcb.
  2: { injection Hb as <-. simpl in Hlog. now apply log_grew_ne in Hlog. }
  injection Hb as <-.
  rewrite (bind_Some _ _ _ _ _ (load_coerced this o a st Hlook)).
  destruct (coerced o a) as [va|] eqn:Hca.
  - assert (Hlook1 : store (loaded this va o st) !! this
                     = Some (set_setByUser true (set_value va o)))
      by apply lookup_insert_eq.
    rewrite (load_coerced this _ b _ Hlook1).
    rewrite (coerced_after_load o a va b Hca), Hcb.
    eexists. split; [reflexivity|]. simpl. now rewrite insert_insert_eq.
  - assert (Hlook1 : store (rejected a o st) !! this = Some o) by exact Hlook.
    rewrite (load_coerced this o b _ Hlook1), Hcb.
    eexists. split; reflexivity.
Qed.

Lemma load_accepted_overrides_witness :
  exists st2,
    (load 5%positive "abc" ;;; load 5%positive "0.7") options_state
    = Some (tt, st2) /\
    value_of 5%positive st2 = Some (VNumber (Finite false 7 (-1))).
Proof.
  destruct (load_accepted_overrides 5%positive _ "abc" "0.7" options_state _
              eq_refl eq_refl eq_refl) as (st2 & Hrun & Hstore).
  exists st2. split; [exact Hrun|].
  unfold value_of. rewrite Hstore. reflexivity.
Defined.

(** ** Reading and writing the properties of an object *)

Section Object_lookup.
Context {V : Type}.
Implicit Types (o target source : list (string * V)) (key : string) (v : V).


Lemma obj_get_set_ne key key' v o :
  key <> key' -> obj_get key' (obj_set key v o) = obj_get key' o.
Proof.
  intros Hne. induction o as [|[k w] o IH]; simpl.
  - destruct (String.eqb_spec key key'); [contradiction | reflexivity].
  - destruct (String.eqb_spec k key) as [->|Hk]; simpl.
    + destruct (String.eqb_spec key key'); [contradiction | reflexivity].
    + destruct (String.eqb_spec k key'); [reflexivity | exact IH].
Qed.

Lemma obj_get_None_fresh key o : obj_get key o = None -> ~ In key (keys o).
Proof.
  induction o as [|[k w] o IH]; simpl; [tauto|].
  destruct (String.eqb_spec k key) as [->|Hne]; [discriminate|].
  intros H [Hk|Hin]; [contradiction | now apply IH].
Qed.



End Object_lookup.

(** ** [Group.merge]: what the result holds *)







(** The empty group is neutral for [merge], on either side: the result has
    the same options and groups, in the same order, when no name in the
    group is a member of [Object.prototype]. *)
Theorem merge_empty (g : Group) (st : State) :
  unique_names g ->
  ordinary_names g ->
  merge g (new_Group None None) st = Some (g, st) /\
  merge (new_Group None None) g st = Some (g, st).
Proof.
  intros Hg Hord.
  assert (Hempty : unique_names (new_Group None None))
    by (split; apply NoDup_nil_2).
  assert (Hkeys : existsb inherited (keys (Group_groups g)) = false).
  { apply ordinary_keys_existsb. now inversion Hord. }
  split.
  - rewrite (merge_share_no_names g (new_Group None None) st Hg Hempty)
      by (split; intros k []).
    simpl. rewrite !app_nil_r. now destruct g.
  - rewrite (merge_share_no_names (new_Group None None) g st Hempty Hg)
      by (split; intros k _ []).
    rewrite Hkeys. simpl. now destruct g.
Qed.

Lemma merge_empty_witness :
  merge opt1 (new_Group None None) sample_state = Some (opt1, sample_state) /\
  merge (new_Group None None) opt1 sample_state = Some (opt1, sample_state).
Proof.
  apply (merge_empty opt1 sample_state).
  - split; simpl; repeat constructor; rewrite list_elem_of_In; simpl; tauto.
  - repeat (constructor; simpl; try reflexivity).
Defined.





(** ** [Group.load]: entries that match no option *)

(** [Group.load] does not descend into nested groups and takes strings
    only: when the key of no string entry of the config reads a property
    of the options of the group, neither an [Option] the group holds
    directly nor a member of [Object.prototype], no [Option] changes and
    every entry logs one ['TODO']. *)
Theorem Group_load_unmatched (this : Group) (entries : list (string * Unknown))
    (st : State) :
  (forall key s, In (key, UString s) entries ->
                 obj_read key (Group_options this) = undefined) ->
  Group_load this (UObject entries) st
  = Some (tt, mkState (store st)
                (log st ++ repeat (ConsoleError "TODO") (length entries))).
Proof.
  simpl. revert st.
  induction entries as [|[key v] entries IH]; intros st Hnone; simpl.
  - unfold ret. rewrite app_nil_r. now destruct st.
  - assert (Hbody : match v with
                    | UString s0 =>
                        match obj_read key (Group_options this) with
                        | own option => load option s0
                        | builtin => throw
                        | undefined => console_error "TODO"
                        end
                    | _ => console_error "TODO"
                    end st
                    = Some (tt, mkState (store st)
                                  (log st ++ [ConsoleError "TODO"]))).
    { destruct v; try reflexivity.
      now rewrite (Hnone key s) by now left. }
    rewrite (bind_Some _ _ _ _ _ Hbody).
    rewrite IH by (intros k s Hin; apply (Hnone k s); now right).
    simpl. now rewrite <- app_assoc.
Qed.

Lemma Group_load_unmatched_witness :
  Group_load opt1
    (UObject [("grp1", UObject [("grp1Opt1", UString "true")]);
              ("grp1Opt1", UString "true");
              ("opt1", UBoolean true)]) sample_state
  = Some (tt, mkState (store sample_state)
                [ConsoleError "TODO"; ConsoleError "TODO"; ConsoleError "TODO"]).
Proof.
  rewrite (Group_load_unmatched opt1
             [("grp1", UObject [("grp1Opt1", UString "true")]);
              ("grp1Opt1", UString "true");
              ("opt1", UBoolean true)] sample_state).
  - reflexivity.
  - intros key s [[=]|[[= <- <-]|[[=]|[]]]]. reflexivity.
Defined.

(** ** [Config.resolve]: how the sources are folded *)





(** ** [Config.resolve] writes to [value] only *)

Lemma set_value_value o : set_value (value o) o = o.
Proof. now destruct o. Qed.

Lemma values_only_refl st : values_only st st.
Proof.
  split; [reflexivity|]. intros r o Ho. exists (value o).
  now rewrite set_value_value.
Qed.

Lemma values_only_trans st1 st2 st3 :
  values_only st1 st2 -> values_only st2 st3 -> values_only st1 st3.
Proof.
  intros [Hl1 Hs1] [Hl2 Hs2]. split; [now rewrite Hl2|].
  intros r o Ho. destruct (Hs1 r o Ho) as [v1 H1].
  destruct (Hs2 r _ H1) as [v2 H2]. now exists v2.
Qed.

Lemma values_only_allocated options st st' :
  values_only st st' -> allocated_options options st ->
  allocated_options options st'.
Proof.
  intros [_ H] Halloc r Hr. destruct (Halloc r Hr) as [o Ho].
  destruct (H r o Ho) as [v Hv]. now exists (set_value v o).
Qed.

Lemma assign_value_values_only this v st :
  is_Some (store st !! this) ->
  exists st', assign this (set_value v) st = Some (tt, st') /\
              values_only st st'.
Proof.
  intros [o Ho]. rewrite (assign_Some _ _ _ _ Ho). eexists.
  split; [reflexivity|]. split; [reflexivity|]. cbn [store log].
  intros r o' Ho'. destruct (decide (this = r)) as [Heq|Hne].
  - subst r. exists v.
    injection (eq_trans (eq_sym Ho) Ho') as <-.
    apply lookup_insert_eq.
  - exists (value o'). rewrite set_value_value.
    now rewrite lookup_insert_ne.
Qed.

Lemma resolveFromObjectInternal_values_only other :
  ordinary_value other = true ->
  forall options st, allocated_options options st ->
    exists st', resolveFromObjectInternal options other st = Some (None, st') /\
                values_only st st'.
Proof.
  apply (resolveFromObjectInternal_invariant (fun _ => values_only)).
  - intros _ st. apply values_only_refl.
  - intros _. apply values_only_trans.
  - auto.
  - intros r v st. apply assign_value_values_only.
  - intros _. apply values_only_allocated.
Qed.

Lemma finalize_values_only this enabled entry st :
  has_option (Config_options this) "loader" "enabled" enabled ->
  has_option (Config_options this) "startup" "entry" entry ->
  allocated_options (Config_options this) st ->
  exists st', finalize this st = Some (tt, st') /\ values_only st st'.
Proof.
  intros Hen Hentry Halloc. unfold finalize.
  destruct (has_option_allocated _ _ _ _ st Hen Halloc) as [e He].
  destruct (has_option_allocated _ _ _ _ st Hentry Halloc) as [s Hs].
  rewrite (bind_Some _ _ _ _ _ (has_option_member _ _ _ _ st Hen)).
  rewrite (bind_Some _ _ _ _ _ (deref_Some _ _ _ He)). cbv beta.
  destruct (negb (setByUser e));
    [|exists st; split; [reflexivity | apply values_only_refl]].
  rewrite (bind_Some _ _ _ _ _ (has_option_member _ _ _ _ st Hentry)).
  rewrite (bind_Some _ _ _ _ _ (deref_Some _ _ _ Hs)). cbv beta.
  destruct (strict_neq_string (value s) DEFAULT_ENTRY_POINT);
    [|exists st; split; [reflexivity | apply values_only_refl]].
  apply assign_value_values_only. now exists e.
Qed.

(** On a schema that has [loader.enabled] and [startup.entry], and for
    override sources none of whose keys, at any depth, is a member of
    [Object.prototype], [resolve] does not throw; it returns [null], logs
    nothing, and changes no field of any [Option] but [value]: not
    [setByUser], not [default], not [type], not [name] or [group]. *)
Theorem resolve_changes_values_only (this : Config)
    (overrides : list (option Overrides)) (enabled entry : oref) (st : State) :
  ordinary_overrides overrides = true ->
  has_option (Config_options this) "loader" "enabled" enabled ->
  has_option (Config_options this) "startup" "entry" entry ->
  allocated_options (Config_options this) st ->
  exists st',
    resolve this overrides st = Some (None, st') /\
    log st' = log st /\
    forall r o, store st !! r = Some o ->
                exists v, store st' !! r = Some (set_value v o).
Proof.
  intros Hord Hen Hentry Halloc. unfold resolve, resolveFromObject.
  destruct (folded_good overrides Hord [] unique_keys_nil eq_refl)
    as (tree & Hfold & _ & Htree).
  unfold Overrides in *. rewrite Hfold.
  rewrite <- ordinary_wrapped in Htree.
  destruct (resolveFromObjectInternal_values_only _ Htree
              (Config_options this) st Halloc) as (st1 & Hst1 & Hq1).
  rewrite (bind_Some _ _ _ _ _ Hst1).
  destruct (finalize_values_only this enabled entry st1 Hen Hentry)
    as (st' & Hst' & Hq').
  { now apply (values_only_allocated _ st). }
  exists st'. rewrite (bind_Some _ _ _ _ _ Hst').
  split; [reflexivity|]. exact (values_only_trans _ _ _ Hq1 Hq').
Qed.

Lemma resolve_changes_values_only_witness :
  exists st',
    resolve (mkConfig options)
      [Some [("loader", [("enabled", UString "maybe");
                         ("maxBeforeMainTimeMs", UNumber (Finite false 5 0))]);
             ("debug", [("debug", UObject [])]);
             ("nosuch", [("x", UNull)])]] options_state
    = Some (None, st') /\
    log st' = [] /\
    forall r o, store options_state !! r = Some o ->
                exists v, store st' !! r = Some (set_value v o).
Proof.
  apply (resolve_changes_values_only (mkConfig options) _
           1%positive 7%positive options_state).
  - reflexivity.
  - eexists. split; reflexivity.
  - eexists. split; reflexivity.
  - intros r Hr. simpl in Hr.
    repeat (destruct Hr as [<-|Hr]; [vm_compute; eauto|]). destruct Hr.
Defined.

(** ** [Config.finalize] after an explicit setting *)

(** An explicit setting of [loader.enabled] survives [finalize]: after a
    [load] of that [Option] that logged no error, [finalize] changes
    nothing, whatever the entry point is, and it does not read
    [startup.entry] at all. *)
Theorem finalize_after_load (this : Config) (enabled : oref) (o : Option)
    (input : string) (st st1 : State) :
  has_option (Config_options this) "loader" "enabled" enabled ->
  store st !! enabled = Some o ->
  load enabled input st = Some (tt, st1) ->
  log st1 = log st ->
  finalize this st1 = Some (tt, st1).
Proof.
  intros Hen Hlook Hload Hlog.
  rewrite (load_coerced enabled o input st Hlook) in Hload.
  destruct (coerced o input) as [v|].
  2: { injection Hload as <-. simpl in Hlog. now apply log_grew_ne in Hlog. }
  injection Hload as <-. unfold finalize.
  rewrite (bind_Some _ _ _ _ _ (has_option_member _ _ _ _ _ Hen)).
  assert (Hlook1 : store (loaded enabled v o st) !! enabled
                   = Some (set_setByUser true (set_value v o)))
    by apply lookup_insert_eq.
  now rewrite (bind_Some _ _ _ _ _ (deref_Some _ _ _ Hlook1)).
Qed.

Lemma finalize_after_load_witness :
  exists st1,
    load loader_enabled "true"
      (loaded startup_entry (VString "custom") (new_Option entry_cfg)
         canonical_state) = Some (tt, st1) /\
    finalize (mkConfig canonical_options) st1 = Some (tt, st1) /\
    value_of loader_enabled st1 = Some (VBoolean true).
Proof.
  eexists. split; [reflexivity|]. split; [|reflexivity].
  apply (finalize_after_load (mkConfig canonical_options) loader_enabled
           (new_Option enabled_cfg) "true"
           (loaded startup_entry (VString "custom") (new_Option entry_cfg)
              canonical_state)).
  - eexists. split; reflexivity.
  - reflexivity.
  - reflexivity.
  - reflexivity.
Defined.

(** ** [Config.resolve] on a schema without the [loader] group *)



(** ** [initOptions] and the constructor of [Config] *)

(** Induction over a schema and the schemas nested in it. *)
Section ExternalOptions_induction.
Variable P : ExternalOptions -> Prop.
Hypothesis mkExternalOptions_case :
  forall entries,
    Forall (fun entry => match snd entry with
                         | inl _ => True
                         | inr sub => P sub
                         end) entries ->
    P (mkExternalOptions entries).

Fixpoint ExternalOptions_nested_ind (options : ExternalOptions) : P options :=
  match options with
  | mkExternalOptions entries =>
      mkExternalOptions_case entries
        ((fix each (l : list (string * (oref + ExternalOptions)))
            : Forall (fun entry => match snd entry with
                                   | inl _ => True
                                   | inr sub => P sub
                                   end) l :=
            match l with
            | [] => List.Forall_nil _
            | (k, inl r) :: rest =>
                List.Forall_cons _ (k, inl r) rest I (each rest)
            | (k, inr sub) :: rest =>
                List.Forall_cons _ (k, inr sub) rest
                  (ExternalOptions_nested_ind sub) (each rest)
            end) entries)
  end.
End ExternalOptions_induction.

Lemma leaves_refs options :
  map snd (ExternalOptions_leaves options) = ExternalOptions_refs options.
Proof.
  induction options as [entries IH] using ExternalOptions_nested_ind.
  simpl. induction IH as [|[k [r|sub]] rest Hhead _ IHrest]; simpl.
  - reflexivity.
  - now rewrite IHrest.
  - simpl in Hhead. now rewrite map_app, Hhead, IHrest.
Qed.

Lemma initialised_refl st : initialised [] st st.
Proof.
  split; [reflexivity|]. intros r o Ho. exists o.
  split; [exact Ho|]. split; [reflexivity|]. split; [intros []|reflexivity].
Qed.

Lemma initialised_trans done1 done2 st1 st2 st3 :
  initialised done1 st1 st2 -> initialised done2 st2 st3 ->
  initialised (done1 ++ done2) st1 st3.
Proof.
  intros [Hl1 H1] [Hl2 H2]. split; [now rewrite Hl2|].
  intros r o Ho.
  destruct (H1 r o Ho) as (o1 & Ho1 & Hw1 & Hin1 & Hout1).
  destruct (H2 r o1 Ho1) as (o2 & Ho2 & Hw2 & Hin2 & Hout2).
  exists o2. split; [exact Ho2|]. split; [now rewrite Hw2|].
  rewrite map_app. split.
  - intros Hin. destruct (in_dec Pos.eq_dec r (map snd done2)) as [Hd2|Hd2].
    + destruct (Hin2 Hd2) as [Hg Hn]. split; [exact Hg|].
      apply in_app_iff. now right.
    + rewrite (Hout2 Hd2). apply in_app_iff in Hin as [Hd1|Hd1];
        [|contradiction].
      destruct (Hin1 Hd1) as [Hg Hn]. split; [exact Hg|].
      apply in_app_iff. now left.
  - intros Hout. rewrite in_app_iff in Hout.
    rewrite Hout2 by tauto. apply Hout1. tauto.
Qed.

Lemma initialised_is_Some done st st' r :
  initialised done st st' -> is_Some (store st !! r) ->
  is_Some (store st' !! r).
Proof.
  intros [_ H] [o Ho]. destruct (H r o Ho) as (o' & Ho' & _). now exists o'.
Qed.

(** One [Option] of the loop: the two assignments. *)
Lemma init_option_initialised key r st :
  is_Some (store st !! r) ->
  exists st',
    (assign r (set_group "TODO") ;;; assign r (set_name key)) st
    = Some (tt, st') /\
    initialised [(key, r)] st st'.
Proof.
  intros [o Ho]. rewrite (bind_Some _ _ _ _ _ (assign_Some _ _ _ _ Ho)).
  unfold assign. cbn [store log]. rewrite lookup_insert_eq, insert_insert_eq.
  eexists. split; [reflexivity|]. split; [reflexivity|]. cbn [store log].
  intros r' o' Ho'. destruct (decide (r = r')) as [Heq|Hne].
  - subst r'. injection (eq_trans (eq_sym Ho) Ho') as <-.
    exists (set_name key (set_group "TODO" o)).
    split; [apply lookup_insert_eq|]. split; [reflexivity|].
    split; [intros _; split; [reflexivity | now left]|].
    intros H. exfalso. apply H. now left.
  - exists o'. split; [now rewrite lookup_insert_ne|].
    split; [reflexivity|]. split; [|reflexivity].
    intros [H|[]]. now destruct Hne.
Qed.

Lemma init_entries_initialised (rec : ExternalOptions -> M unit) entries :
  Forall (fun entry =>
            match snd entry with
            | inl _ => True
            | inr sub =>
                forall st, allocated_options sub st ->
                  exists st', rec sub st = Some (tt, st') /\
                              initialised (ExternalOptions_leaves sub) st st'
            end) entries ->
  forall st, allocated_options (mkExternalOptions entries) st ->
    exists st', init_entries rec entries st = Some (tt, st') /\
                initialised (ExternalOptions_leaves (mkExternalOptions entries))
                  st st'.
Proof.
  induction 1 as [|[key [r|sub]] rest Hhead _ IH]; intros st Halloc.
  - exists st. split; [reflexivity | apply initialised_refl].
  - destruct (init_option_initialised key r st) as (st1 & Hst1 & Hi1).
    { apply Halloc. simpl. now left. }
    destruct (IH st1) as (st' & Hst' & Hi').
    { intros r' Hr'. apply (initialised_is_Some _ _ _ _ Hi1).
      apply Halloc. simpl. now right. }
    exists st'. split.
    + simpl. unfold bind in Hst1 |- *.
      destruct (assign r (set_group "TODO") st) as [[[] st0]|];
        [|discriminate].
      now rewrite Hst1.
    + exact (initialised_trans [(key, r)] _ _ _ _ Hi1 Hi').
  - simpl in Hhead. destruct (Hhead st) as (st1 & Hst1 & Hi1).
    { intros r' Hr'. apply Halloc. simpl. apply in_app_iff. now left. }
    destruct (IH st1) as (st' & Hst' & Hi').
    { intros r' Hr'. apply (initialised_is_Some _ _ _ _ Hi1).
      apply Halloc. simpl. apply in_app_iff. now right. }
    exists st'. split.
    + simpl. now rewrite (bind_Some _ _ _ _ _ Hst1).
    + exact (initialised_trans _ _ _ _ _ Hi1 Hi').
Qed.

Lemma initOptions_initialised options :
  forall st, allocated_options options st ->
    exists st', initOptions options st = Some (tt, st') /\
                initialised (ExternalOptions_leaves options) st st'.
Proof.
  induction options as [entries IH] using ExternalOptions_nested_ind.
  intros st Halloc. simpl initOptions.
  now apply init_entries_initialised.
Qed.

(** [new Config(schema)] names the options and changes nothing else: for
    every [Option] of the schema, [group] becomes ['TODO'] and [name] a
    key the [Option] is stored under, so that [qualifiedName()] is
    ['TODO.' + key]; [value], [default], [type] and [setByUser] of every
    [Option] stay, an [Option] outside the schema is untouched, and
    nothing is logged. *)
Theorem new_Config_names_options (options : ExternalOptions) (st : State) :
  allocated_options options st ->
  exists st',
    new_Config (Some options) st = Some (mkConfig options, st') /\
    log st' = log st /\
    forall r o, store st !! r = Some o ->
      exists o',
        store st' !! r = Some o' /\
        value o' = value o /\ default o' = default o /\
        type o' = type o /\ setByUser o' = setByUser o /\
        (In r (ExternalOptions_refs options) ->
         In (name o', r) (ExternalOptions_leaves options) /\
         group o' = "TODO" /\
         qualifiedName o'
         = if String.eqb (name o') "TODO" then "TODO"
           else ("TODO." ++ name o')%string) /\
        (~ In r (ExternalOptions_refs options) -> o' = o).
Proof.
  intros Halloc.
  destruct (initOptions_initialised options st Halloc) as (st' & Hst' & Hl & Hi).
  exists st'. unfold new_Config. cbn [from_option id Config_options].
  rewrite (bind_Some _ _ _ _ _ Hst'). split; [reflexivity|].
  split; [exact Hl|]. intros r o Ho.
  destruct (Hi r o Ho) as (o' & Ho' & Hw & Hin & Hout).
  exists o'. split; [exact Ho'|].
  rewrite <- leaves_refs.
  split; [exact (f_equal value Hw)|].
  split; [exact (f_equal default Hw)|].
  split; [exact (f_equal type Hw)|].
  split; [exact (f_equal setByUser Hw)|].
  split; [|exact Hout].
  intros Hr. destruct (Hin Hr) as [Hg Hn]. split; [exact Hn|].
  split; [exact Hg|]. unfold qualifiedName. rewrite Hg.
  change (String.eqb "TODO" "") with false. cbn [negb andb].
  rewrite (String.eqb_sym "TODO").
  destruct (String.eqb_spec (name o') "TODO") as [Heq|_]; [exact Heq|].
  reflexivity.
Qed.

Lemma new_Config_names_options_witness :
  exists st',
    new_Config (Some canonical_options) canonical_state
    = Some (mkConfig canonical_options, st') /\
    log st' = [] /\
    forall r o, store canonical_state !! r = Some o ->
      exists o',
        store st' !! r = Some o' /\
        value o' = value o /\ default o' = default o /\
        type o' = type o /\ setByUser o' = setByUser o /\
        (In r [startup_entry; loader_enabled] ->
         In (name o', r) [("entry", startup_entry); ("enabled", loader_enabled)] /\
         group o' = "TODO" /\
         qualifiedName o'
         = if String.eqb (name o') "TODO" then "TODO"
           else ("TODO." ++ name o')%string) /\
        (~ In r [startup_entry; loader_enabled] -> o' = o).
Proof.
  apply (new_Config_names_options canonical_options canonical_state).
  intros r [<-|[<-|[]]]; vm_compute; eauto.
Defined.

(** ** [Config.resolve]: what a matched string leaf becomes *)

Lemma resolve_entries_cons options key v rest :
  resolve_entries resolveFromObjectInternal options ((key, v) :: rest)
  = (resolve_entry options key v ;;;
     resolve_entries resolveFromObjectInternal options rest).
Proof. reflexivity. Qed.

Lemma writes_within_incl refs refs' st st' :
  (forall r, In r refs -> In r refs') ->
  writes_within refs st st' -> writes_within refs' st st'.
Proof. intros Hincl [H1 H2]. split; [|exact H2]. intros r Hr. apply H1. auto. Qed.

Lemma writes_within_allocated options refs st st' :
  writes_within refs st st' -> allocated_options options st ->
  allocated_options options st'.
Proof. intros [_ H] Halloc r Hr. now apply H, Halloc. Qed.

Lemma assign_writes_within this f st :
  is_Some (store st !! this) ->
  exists st', assign this f st = Some (tt, st') /\
              writes_within [this] st st'.
Proof.
  intros [o Ho]. rewrite (assign_Some _ _ _ _ Ho). eexists.
  split; [reflexivity|]. split; cbn [store log].
  - intros r Hr. apply lookup_insert_ne. intros <-. apply Hr. now left.
  - intros r Hr. rewrite lookup_insert_is_Some.
    destruct (decide (this = r)); auto.
Qed.

(** [resolveFromObjectInternal] writes to the [Option]s of the schema it
    is given, and to no other. *)
Lemma resolveFromObjectInternal_within other :
  ordinary_value other = true ->
  forall options st, allocated_options options st ->
    exists st', resolveFromObjectInternal options other st = Some (None, st') /\
                writes_within (ExternalOptions_refs options) st st'.
Proof.
  apply (resolveFromObjectInternal_invariant writes_within).
  - intros refs st. now apply writes_within_same_store.
  - apply writes_within_trans.
  - apply writes_within_incl.
  - intros r v st. apply assign_writes_within.
  - intros refs options st st'. apply writes_within_allocated.
Qed.

(** One pass writes to the [Option]s behind the entry its key names. *)
Lemma resolve_entry_within options key v st :
  inherited key = false ->
  ordinary_value v = true ->
  allocated_options options st ->
  exists st1,
    resolve_entry options key v st = Some (tt, st1) /\
    writes_within (match obj_get key (entries_of options) with
                   | Some node => entry_refs node
                   | None => []
                   end) st st1.
Proof.
  intros Hkey Hv Halloc. unfold resolve_entry.
  destruct (obj_get key (entries_of options)) as [[r|sub]|] eqn:Hget;
    [rewrite (obj_read_own _ _ _ Hget) | rewrite (obj_read_own _ _ _ Hget)
    |rewrite (obj_read_undefined _ _ Hget Hkey)].
  - assert (Hstay : exists st1,
              ret tt st = Some (tt, st1) /\
              writes_within (entry_refs (inl r)) st st1)
      by (exists st; split; [reflexivity | now apply writes_within_same_store]).
    destruct v; try exact Hstay.
    apply assign_writes_within.
    now apply (entry_option_allocated options key).
  - assert (Hsub : exists st1,
              (resolveFromObjectInternal sub v ;;; ret tt) st = Some (tt, st1) /\
              writes_within (entry_refs (inr sub)) st st1).
    { destruct (resolveFromObjectInternal_within v Hv sub st)
        as (st1 & Hrec & Hw).
      { now apply (entry_group_allocated options key). }
      exists st1. now rewrite (bind_Some _ _ _ _ _ Hrec). }
    destruct v; exact Hsub.
  - exists st. split; [reflexivity | now apply writes_within_same_store].
Qed.

Lemma resolve_entry_within_schema options key v st :
  inherited key = false ->
  ordinary_value v = true ->
  allocated_options options st ->
  exists st1,
    resolve_entry options key v st = Some (tt, st1) /\
    writes_within (ExternalOptions_refs options) st st1.
Proof.
  intros Hkey Hv Halloc.
  destruct (resolve_entry_within options key v st Hkey Hv Halloc)
    as (st1 & Hst1 & Hw).
  exists st1. split; [exact Hst1|].
  revert Hw. apply writes_within_incl. intros r Hr.
  destruct (obj_get key (entries_of options)) as [node|] eqn:Hget;
    [|destruct Hr].
  exact (entry_refs_incl options key node r Hget Hr).
Qed.

(** Passes for other keys leave [r] alone, when [r] stands under no other
    key. *)
Lemma resolve_entries_skips options key r entries :
  (forall k' node, k' <> key ->
      obj_get k' (entries_of options) = Some node ->
      ~ In r (entry_refs node)) ->
  ~ In key (keys entries) ->
  ordinary_value (UObject entries) = true ->
  forall st, allocated_options options st ->
    exists st',
      resolve_entries resolveFromObjectInternal options entries st
      = Some (tt, st') /\
      writes_within (ExternalOptions_refs options) st st' /\
      store st' !! r = store st !! r.
Proof.
  intros Hother.
  induction entries as [|[k1 v1] rest IH]; intros Hkey Hord st Halloc.
  - exists st. split; [reflexivity|].
    split; [now apply writes_within_same_store | reflexivity].
  - simpl in Hord. apply andb_prop in Hord as [[Hk1 Hv1]%andb_prop Hrest].
    apply negb_true_iff in Hk1.
    rewrite resolve_entries_cons.
    destruct (resolve_entry_within options k1 v1 st Hk1 Hv1 Halloc)
      as (st1 & Hst1 & Hw1).
    destruct (resolve_entry_within_schema options k1 v1 st Hk1 Hv1 Halloc)
      as (st1' & Hst1' & Hw1').
    rewrite Hst1 in Hst1'. injection Hst1' as <-.
    rewrite (bind_Some _ _ _ _ _ Hst1).
    destruct (IH (fun H => Hkey (or_intror H)) Hrest st1)
      as (st' & Hst' & Hw' & Hr').
    { eapply writes_within_allocated; eassumption. }
    exists st'. split; [exact Hst'|].
    split; [now apply (writes_within_trans _ st st1 st')|].
    rewrite Hr'. apply Hw1.
    destruct (obj_get k1 (entries_of options)) as [node|] eqn:Hget; [|tauto].
    apply (Hother k1 node); [|exact Hget].
    intros ->. apply Hkey. now left.
Qed.

(** The pass for [key] settles what [r] holds, when [r] stands under no
    other key and the keys of the override are pairwise different. *)
Lemma resolve_entries_settles options key v r (Q : option Option -> Prop)
    entries :
  NoDup (keys entries) ->
  ordinary_value (UObject entries) = true ->
  In (key, v) entries ->
  (forall k' node, k' <> key ->
      obj_get k' (entries_of options) = Some node ->
      ~ In r (entry_refs node)) ->
  (forall st, allocated_options options st ->
      exists st1,
        resolve_entry options key v st = Some (tt, st1) /\
        writes_within (ExternalOptions_refs options) st st1 /\
        Q (store st1 !! r)) ->
  forall st, allocated_options options st ->
    exists st',
      resolve_entries resolveFromObjectInternal options entries st
      = Some (tt, st') /\
      writes_within (ExternalOptions_refs options) st st' /\
      Q (store st' !! r).
Proof.
  intros Hnd Hord Hin Hother Hbody.
  induction entries as [|[k1 v1] rest IH]; intros st Halloc; [destruct Hin|].
  inversion Hnd as [|? ? Hk1 Hnd']; subst. rewrite list_elem_of_In in Hk1.
  simpl in Hord. apply andb_prop in Hord as [[Hord1 Hv1]%andb_prop Hrest].
  apply negb_true_iff in Hord1.
  rewrite resolve_entries_cons.
  destruct Hin as [[= -> ->]|Hin].
  - destruct (Hbody st Halloc) as (st1 & Hst1 & Hw1 & HQ).
    rewrite (bind_Some _ _ _ _ _ Hst1).
    destruct (resolve_entries_skips options key r rest Hother Hk1 Hrest st1)
      as (st' & Hst' & Hw' & Hr').
    { eapply writes_within_allocated; eassumption. }
    exists st'. split; [exact Hst'|].
    split; [now apply (writes_within_trans _ st st1 st')|].
    now rewrite Hr'.
  - destruct (resolve_entry_within_schema options k1 v1 st Hord1 Hv1 Halloc)
      as (st1 & Hst1 & Hw1).
    rewrite (bind_Some _ _ _ _ _ Hst1).
    destruct (IH Hnd' Hrest Hin st1) as (st' & Hst' & Hw' & HQ).
    { eapply writes_within_allocated; eassumption. }
    exists st'. split; [exact Hst'|].
    split; [now apply (writes_within_trans _ st st1 st') | exact HQ].
Qed.

Lemma entries_refs_distinct (entries : list (string * (oref + ExternalOptions)))
    k1 n1 k2 n2 r :
  NoDup (flat_map (fun entry => entry_refs (snd entry)) entries) ->
  obj_get k1 entries = Some n1 ->
  obj_get k2 entries = Some n2 ->
  k1 <> k2 ->
  In r (entry_refs n1) -> ~ In r (entry_refs n2).
Proof.
  induction entries as [|[k0 n0] l IH]; [discriminate|].
  simpl. rewrite NoDup_app. intros (Hn0 & Hdisj & Hl).
  assert (Hin : forall k n, obj_get k l = Some n -> forall x,
              In x (entry_refs n) ->
              In x (flat_map (fun entry => entry_refs (snd entry)) l)).
  { intros k n Hget x Hx. apply in_flat_map. exists (k, n).
    split; [now apply obj_get_In | exact Hx]. }
  destruct (String.eqb_spec k0 k1) as [E1|H1];
    destruct (String.eqb_spec k0 k2) as [E2|H2].
  - intros _ _ Hne. destruct Hne. now rewrite <- E1.
  - intros [= <-] Hg2 _ Hr1 Hr2.
    apply (Hdisj r); rewrite list_elem_of_In; [exact Hr1|].
    exact (Hin k2 n2 Hg2 r Hr2).
  - intros Hg1 [= <-] _ Hr1 Hr2.
    apply (Hdisj r); rewrite list_elem_of_In; [exact Hr2|].
    exact (Hin k1 n1 Hg1 r Hr1).
  - intros Hg1 Hg2 Hne. now apply IH.
Qed.

Lemma entries_refs_NoDup (entries : list (string * (oref + ExternalOptions)))
    k n :
  NoDup (flat_map (fun entry => entry_refs (snd entry)) entries) ->
  obj_get k entries = Some n -> NoDup (entry_refs n).
Proof.
  induction entries as [|[k0 n0] l IH]; [discriminate|].
  simpl. rewrite NoDup_app. intros (Hn0 & _ & Hl).
  destruct (String.eqb k0 k); [now intros [= <-] | now apply IH].
Qed.

Lemma schema_refs_flat options :
  ExternalOptions_refs options
  = flat_map (fun entry => entry_refs (snd entry)) (entries_of options).
Proof. now destruct options. Qed.

(** A string leaf [group.key] of the override tree ends as the [value] of
    the [Option] the schema has at [group.key]. *)
Lemma resolveFromObjectInternal_string_leaf options tree g k r sub_entries s st :
  has_option options g k r ->
  NoDup (ExternalOptions_refs options) ->
  NoDup (keys tree) ->
  ordinary_value (UObject tree) = true ->
  obj_get g tree = Some (UObject sub_entries) ->
  NoDup (keys sub_entries) ->
  obj_get k sub_entries = Some (UString s) ->
  allocated_options options st ->
  exists st',
    resolveFromObjectInternal options (UObject tree) st = Some (None, st') /\
    writes_within (ExternalOptions_refs options) st st' /\
    value <$> store st' !! r = Some (VString s).
Proof.
  intros (sub & Hg & Hk) Hrefs Htree Hord Hgt Hsub Hkt Halloc.
  rewrite schema_refs_flat in Hrefs.
  assert (Hrsub : In r (ExternalOptions_refs sub))
    by exact (entry_refs_incl sub k (inl r) r Hk (or_introl eq_refl)).
  assert (Hsubrefs : NoDup (ExternalOptions_refs sub))
    by exact (entries_refs_NoDup _ g (inr sub) Hrefs Hg).
  rewrite schema_refs_flat in Hsubrefs.
  assert (Hsubord : ordinary_value (UObject sub_entries) = true).
  { cbn [ordinary_value] in Hord.
    assert (Hin := forallb_In _ _ _ Hord (obj_get_In _ _ _ Hgt)).
    cbn [fst snd] in Hin. now apply andb_prop in Hin as [_ Hin]. }
  destruct (resolve_entries_settles options g (UObject sub_entries) r
              (fun x => value <$> x = Some (VString s)) tree Htree Hord
              (obj_get_In _ _ _ Hgt))
    with (st := st) as (st' & Hst' & Hw & HQ).
  - intros k' node Hne Hget.
    exact (entries_refs_distinct _ g (inr sub) k' node r Hrefs Hg Hget
             (fun H => Hne (eq_sym H)) Hrsub).
  - intros st0 Halloc0. unfold resolve_entry.
    rewrite (obj_read_own _ _ _ Hg).
    change (resolveFromObjectInternal sub (UObject sub_entries))
      with (resolve_entries resolveFromObjectInternal sub sub_entries ;;;
            ret (@None (list string))).
    destruct (resolve_entries_settles sub k (UString s) r
                (fun x => value <$> x = Some (VString s)) sub_entries Hsub
                Hsubord (obj_get_In _ _ _ Hkt))
      with (st := st0) as (st1 & Hst1 & Hw1 & HQ1).
    + intros k' node Hne Hget.
      exact (entries_refs_distinct _ k (inl r) k' node r Hsubrefs Hk Hget
               (fun H => Hne (eq_sym H)) (or_introl eq_refl)).
    + intros st2 Halloc2. unfold resolve_entry.
      rewrite (obj_read_own _ _ _ Hk).
      destruct (entry_option_allocated sub k r st2 Hk Halloc2) as [o Ho].
      rewrite (assign_Some _ _ _ _ Ho). eexists. split; [reflexivity|].
      split.
      * split; cbn [store log].
        -- intros r' Hr'. apply lookup_insert_ne. now intros <-.
        -- intros r' Hr'. rewrite lookup_insert_is_Some.
           destruct (decide (r = r')); auto.
      * cbn [store]. now rewrite lookup_insert_eq.
    + exact (entry_group_allocated options g sub st0 Hg Halloc0).
    + exists st1. unfold bind in Hst1 |- *. rewrite Hst1.
      split; [reflexivity|]. split; [|exact HQ1].
      revert Hw1. apply writes_within_incl. intros r' Hr'.
      exact (entry_refs_incl options g (inr sub) r' Hg Hr').
  - exact Halloc.
  - exists st'. change (resolveFromObjectInternal options (UObject tree))
      with (resolve_entries resolveFromObjectInternal options tree ;;;
            ret (@None (list string))).
    now rewrite (bind_Some _ _ _ _ _ Hst').
Qed.

Lemma obj_get_wrapped (tree : Overrides) g :
  obj_get g (map (fun entry => (fst entry, UObject (snd entry))) tree)
  = UObject <$> obj_get g tree.
Proof.
  induction tree as [|[k o] tree IH]; simpl; [reflexivity|].
  now destruct (String.eqb k g).
Qed.

(** [finalize] writes to [loader.enabled] only. *)
Lemma finalize_frame this enabled entry st :
  has_option (Config_options this) "loader" "enabled" enabled ->
  has_option (Config_options this) "startup" "entry" entry ->
  allocated_options (Config_options this) st ->
  exists st', finalize this st = Some (tt, st') /\
              forall r, r <> enabled -> store st' !! r = store st !! r.
Proof.
  intros Hen Hentry Halloc. unfold finalize.
  destruct (has_option_allocated _ _ _ _ st Hen Halloc) as [e He].
  destruct (has_option_allocated _ _ _ _ st Hentry Halloc) as [s Hs].
  rewrite (bind_Some _ _ _ _ _ (has_option_member _ _ _ _ st Hen)).
  rewrite (bind_Some _ _ _ _ _ (deref_Some _ _ _ He)). cbv beta.
  destruct (negb (setByUser e)); [|now exists st].
  rewrite (bind_Some _ _ _ _ _ (has_option_member _ _ _ _ st Hentry)).
  rewrite (bind_Some _ _ _ _ _ (deref_Some _ _ _ Hs)). cbv beta.
  destruct (strict_neq_string (value s) DEFAULT_ENTRY_POINT);
    [|now exists st].
  rewrite (assign_Some _ _ _ _ He). eexists. split; [reflexivity|].
  intros r Hr. cbn [store]. now apply lookup_insert_ne.
Qed.

(** [resolve] stores the raw string of the winning source.  The override
    sources have no key, at any depth, that is a member of
    [Object.prototype]; the schema has [loader.enabled] and [startup.entry],
    and no [Option] object stands under two of its keys.  When the first
    loop leaves the string [s] at [group.key] and the schema has an
    [Option] there, other than [loader.enabled], that [Option] ends with
    [value === s], whatever its declared type is. *)
Theorem resolve_stores_raw_string (this : Config)
    (overrides : list (option Overrides)) (tree : Overrides)
    (group key s : string) (r enabled entry : oref) (st : State) :
  ordinary_overrides overrides = true ->
  has_option (Config_options this) "loader" "enabled" enabled ->
  has_option (Config_options this) "startup" "entry" entry ->
  has_option (Config_options this) group key r ->
  r <> enabled ->
  NoDup (ExternalOptions_refs (Config_options this)) ->
  allocated_options (Config_options this) st ->
  fold_left add_override overrides (Some []) = Some tree ->
  override_leaf tree group key = Some (UString s) ->
  exists st',
    resolve this overrides st = Some (None, st') /\
    value_of r st' = Some (VString s).
Proof.
  intros Hord Hen Hentry Hr Hne Hrefs Halloc Hfold Hleaf.
  destruct (folded_good overrides Hord [] unique_keys_nil eq_refl)
    as (tree' & Hfold' & [Htree Hgroups] & Hotree).
  injection (eq_trans (eq_sym Hfold) Hfold') as <-.
  rewrite <- ordinary_wrapped in Hotree.
  unfold override_leaf in Hleaf.
  destruct (obj_get group tree) as [sub_entries|] eqn:Hgt; [|discriminate].
  assert (Hsub : NoDup (keys sub_entries)).
  { rewrite Forall_forall in Hgroups.
    exact (Hgroups (group, sub_entries)
             (proj2 (list_elem_of_In _ _) (obj_get_In _ _ _ Hgt))). }
  unfold resolve, resolveFromObject.
  unfold Overrides in *. rewrite Hfold.
  destruct (resolveFromObjectInternal_string_leaf (Config_options this)
              (map (fun entry0 => (fst entry0, UObject (snd entry0))) tree)
              group key r sub_entries s st Hr Hrefs)
    as (st1 & Hst1 & Hw1 & Hv1); try assumption.
  { unfold keys. rewrite map_map. exact Htree. }
  { now rewrite obj_get_wrapped, Hgt. }
  rewrite (bind_Some _ _ _ _ _ Hst1).
  destruct (finalize_frame this enabled entry st1 Hen Hentry)
    as (st' & Hst' & Hframe).
  { eapply writes_within_allocated; eassumption. }
  exists st'. rewrite (bind_Some _ _ _ _ _ Hst'). split; [reflexivity|].
  unfold value_of. now rewrite (Hframe r Hne).
Qed.

Lemma resolve_stores_raw_string_witness :
  exists st',
    resolve (mkConfig options)
      [Some [("loader", [("maxBeforeMainTimeMs", UString "12")])];
       Some [("debug", [("debug", UString "yes")]);
             ("loader", [("maxBeforeMainTimeMs", UString "abc")])]]
      options_state = Some (None, st') /\
    value_of 6%positive st' = Some (VString "abc").
Proof.
  apply (resolve_stores_raw_string (mkConfig options) _
           [("loader", [("maxBeforeMainTimeMs", UString "abc")]);
            ("debug", [("debug", UString "yes")])]
           "loader" "maxBeforeMainTimeMs" "abc" 6%positive 1%positive
           7%positive options_state).
  - reflexivity.
  - eexists. split; reflexivity.
  - eexists. split; reflexivity.
  - eexists. split; reflexivity.
  - discriminate.
  - simpl. repeat (apply NoDup_cons_2;
                   [rewrite list_elem_of_In; simpl; intuition discriminate|]).
    apply NoDup_nil_2.
  - intros r Hr. simpl in Hr.
    repeat (destruct Hr as [<-|Hr]; [vm_compute; eauto|]). destruct Hr.
  - reflexivity.
  - reflexivity.
Defined.

(** ** [mergeOptions] *)







(** ** [Group.merge] is associative *)








Lemma Forall_Object_assign {V} (P : V -> Prop)
    (target source : list (string * V)) :
  Forall (fun entry => P (snd entry)) target ->
  Forall (fun entry => P (snd entry)) source ->
  Forall (fun entry => P (snd entry)) (Object_assign target source).
Proof.
  intros Ht Hs. revert target Ht.
  induction Hs as [|[k w] source Hw _ IH]; intros target Ht; [exact Ht|].
  apply (IH (obj_set k w target)). now apply (Forall_obj_set P).
Qed.

Section Upsert.
Context {V : Type} (f : V -> V -> V) (P : V -> Prop).
Implicit Types (X Y Z : list (string * V)) (k : string).











End Upsert.





(** ** Names that [Object.prototype] has *)

Lemma obj_get_Object_assign_None {V} key (target source : list (string * V)) :
  obj_get key target = None -> obj_get key source = None ->
  obj_get key (Object_assign target source) = None.
Proof.
  revert target. induction source as [|[k w] source IH]; intros target Ht Hs.
  - exact Ht.
  - simpl in Hs. destruct (String.eqb_spec k key) as [->|Hne]; [discriminate|].
    apply (IH (obj_set k w target)); [|exact Hs].
    now rewrite (obj_get_set_ne k key).
Qed.

Lemma merge_groups_throws (rec : Group -> Group -> M Group) name g entries :
  inherited name = true ->
  obj_get name entries = Some g ->
  forall result_groups st,
    obj_get name result_groups = None ->
    merge_groups rec entries result_groups st = None.
Proof.
  intros Hname. induction entries as [|[k og] rest IH]; [discriminate|].
  intros Hget acc st Hacc. cbn [merge_groups]. simpl in Hget.
  destruct (String.eqb_spec k name) as [->|Hne].
  - now rewrite (obj_read_builtin _ _ Hacc Hname).
  - assert (Hnext : forall m, merge_groups rec rest (obj_set k m acc) st = None).
    { intros m. apply (IH Hget). now rewrite (obj_get_set_ne k name). }
    destruct (obj_read k acc) as [group| |]; [|reflexivity|apply Hnext].
    unfold bind. destruct (rec group og st) as [[m st0]|]; [|reflexivity].
    apply (IH Hget). now rewrite (obj_get_set_ne k name).
Qed.

(** [merge] throws where [other] has a group under a name that
    [Object.prototype] has and [this] has no group of: the read
    [result.groups[name]] gives the built-in, which is not [null] and has no
    [merge]. *)
Theorem merge_throws_at_inherited_name (this other : Group) (name : string)
    (g : Group) (st : State) :
  inherited name = true ->
  obj_get name (Group_groups other) = Some g ->
  obj_get name (Group_groups this) = None ->
  merge this other st = None.
Proof.
  intros Hname Hother Hthis. destruct other as [otherOptions otherGroups].
  simpl in Hother. simpl. apply bind_None.
  apply (merge_groups_throws merge name g otherGroups Hname Hother).
  now apply obj_get_Object_assign_None.
Qed.

Lemma merge_throws_at_inherited_name_witness :
  merge opt1 (new_Group None (Some [("constructor", new_Group None None)]))
    sample_state = None /\
  (ab <- merge (new_Group None (Some [("constructor", opt1)]))
           (new_Group None None) ;;
   merge ab (new_Group None (Some [("constructor", opt2)]))) sample_state
  <> None.
Proof.
  split.
  - now apply (merge_throws_at_inherited_name opt1 _ "constructor"
                 (new_Group None None)).
  - intros H. vm_compute in H. discriminate H.
Defined.

(** [Group.load] throws when the config has a string under a key that
    [Object.prototype] has and the group has no option of: the read
    [this.options[key]] gives the built-in, which is not [null] and has no
    [load]. *)
Theorem Group_load_throws_at_inherited_key (this : Group)
    (entries : list (string * Unknown)) (key s : string) (st : State) :
  inherited key = true ->
  In (key, UString s) entries ->
  obj_get key (Group_options this) = None ->
  Group_load this (UObject entries) st = None.
Proof.
  intros Hkey Hin Hnone. cbn [Group_load]. revert st.
  induction entries as [|[k v] rest IH]; intros st; [destruct Hin|].
  cbn [for_each]. destruct Hin as [[= -> ->]|Hin].
  - apply bind_None. now rewrite (obj_read_builtin _ _ Hnone Hkey).
  - unfold bind.
    destruct (match v with
              | UString s0 =>
                  match obj_read k (Group_options this) with
                  | own option => load option s0
                  | builtin => throw
                  | undefined => console_error "TODO"
                  end
              | _ => console_error "TODO"
              end st) as [[[] st1]|]; [|reflexivity].
    now apply IH.
Qed.

Lemma Group_load_throws_at_inherited_key_witness :
  Group_load opt1 (UObject [("opt1", UString "yes"); ("toString", UString "true")])
    sample_state = None.
Proof.
  apply (Group_load_throws_at_inherited_key opt1 _ "toString" "true").
  - reflexivity.
  - right. now left.
  - reflexivity.
Defined.
